(** * Ember: the Spark request tracker and the login realm service

    A shallow embedding of

    - [src/libs/spark/src/TrackingService.cpp]: the correlation table
      [handlers_] that pairs a sent request with its response or with the
      expiry of its timer;
    - [src/login/RealmService.cpp]: the message and link-event handlers;
    - [src/gateway/main.cpp]: [category_name];
    - [protocol/client/PlayerLogin.h]: the packet's stream functions.

    Every method is a computation in a state-and-exception monad over the
    object's members.  The Boost.Asio deadline timers owned by the requests
    live in the model of the [io_service] that the tracking service holds by
    reference ([service_]); user callbacks are opaque and every invocation is
    recorded, in order, in a trace. *)

From stdpp Require Import gmap strings list fin_maps.

Local Open Scope Z_scope.

(** ** State-and-exception monad shared by both services *)

Module Eff.

(** Non-returning outcomes.  [out_of_range] is [std::out_of_range] as thrown
    by [unordered_map::at]; [null_dereference] stands for the undefined
    behaviour of calling a member through a null pointer. *)
Inductive exn := out_of_range | null_dereference.

Inductive Res (A : Type) :=
  | Ok (a : A)
  | Throw (e : exn).
Arguments Ok {A} a.
Arguments Throw {A} e.

Definition M (S A : Type) : Type := S → Res A * S.

Definition ret {S A} (a : A) : M S A := λ s, (Ok a, s).

Definition bind {S A B} (m : M S A) (k : A → M S B) : M S B :=
  λ s, match m s with
       | (Ok a, s') => k a s'
       | (Throw e, s') => (Throw e, s')
       end.

Definition throw {S A} (e : exn) : M S A := λ s, (Throw e, s).

(** [try { body } catch (which) { handler }]: only the exceptions selected by
    [which] are caught; the state reached at the throw is kept. *)
Definition try_catch {S A} (body : M S A) (which : exn → bool)
    (handler : M S A) : M S A :=
  λ s, match body s with
       | (Ok a, s') => (Ok a, s')
       | (Throw e, s') => if which e then handler s' else (Throw e, s')
       end.

Definition modify {S} (f : S → S) : M S unit := λ s, (Ok tt, f s).
End Eff.

Import Eff.

#[global] Instance M_ret {S} : MRet (M S) := λ A, ret.
#[global] Instance M_bind {S} : MBind (M S) := λ A B k m, bind m k.

(** Log severities of the logger macros. *)
Inductive Severity := TRACE | DEBUG | INFO | WARN.

#[global] Instance Severity_eq_dec : EqDecision Severity.
Proof. solve_decision. Defined.

(** ** spark::TrackingService *)

Module Spark.

(** [boost::uuids::uuid]: 128 bits. *)
Definition uuid := N.

(** Modelled from the spec: [spark::Link] is declared in a header outside
    [src/]; the data model gives it an opaque unique identifier, and links
    are compared by it. *)
Record Link := mkLink { link_uuid : uuid }.

#[global] Instance Link_eq_dec : EqDecision Link.
Proof. solve_decision. Defined.

(** Modelled from the spec: [spark::Message] with the fields of the data
    model; the tracker reads [message.token.uuid] only. *)
Record Message := mkMessage {
  msg_service : N;
  msg_data_type : N;
  msg_token : uuid;
  msg_body : list N
}.

#[global] Instance Message_eq_dec : EqDecision Message.
Proof. solve_decision. Defined.

(** [TrackingHandler] is a [std::function]; a handler is named, and calling
    it is an event of the trace. *)
Definition TrackingHandler := N.

(** Timers are identified by their allocation number in the [io_service]. *)
Definition timer_id := N.

(** [boost::system::error_code]: its value; [if(ec)] tests [ec ≠ 0]. *)
Definition error_code := Z.
Definition success : error_code := 0.
Definition operation_aborted : error_code := 125.

(** [struct Request { timer; id; link; handler }], built by
    [Request(service_, id, link, handler)]. *)
Record Request := mkRequest {
  req_timer : timer_id;
  req_id : uuid;
  req_link : Link;
  req_handler : TrackingHandler
}.

#[global] Instance Request_eq_dec : EqDecision Request.
Proof. solve_decision. Defined.

(** The asynchronous wait of a deadline timer.  The completion handler bound
    by [register_tracked] is [timeout(this, id, link, _1)], so a wait carries
    [id] and [link].

    - [Waiting]: [async_wait] is outstanding and the deadline has not passed;
    - [Queued ec]: the completion handler has been posted to the
      [io_service] and will run with [ec]: [success] when the deadline
      passed, [operation_aborted] when the wait was cancelled first;
    - [Idle]: nothing outstanding (before [async_wait], after the handler
      ran). *)
Inductive wait_state :=
  | Idle
  | Waiting (id : uuid) (link : Link)
  | Queued (id : uuid) (link : Link) (ec : error_code).

Record Timer := mkTimer { expiry : Z; wait : wait_state }.

Inductive Event :=
  | EvLog (sev : Severity) (text : string)
  | EvCall (r : Request) (link : Link) (arg : option Message).

#[global] Instance Event_eq_dec : EqDecision Event.
Proof. solve_decision. Defined.

(** Members of the service ([handlers_]), the part of [service_] it uses
    (the clock in milliseconds, the timers and the allocation counter), and
    the trace of log lines and callback invocations. *)
Record State := mkState {
  handlers_ : gmap uuid Request;
  timers : gmap timer_id Timer;
  next_timer : timer_id;
  clock : Z;
  trace : list Event
}.

Definition init : State := mkState ∅ ∅ 0%N 0 [].

Definition set_handlers (f : gmap uuid Request → gmap uuid Request) (s : State) :=
  mkState (f (handlers_ s)) (timers s) (next_timer s) (clock s) (trace s).
Definition set_timers (f : gmap timer_id Timer → gmap timer_id Timer) (s : State) :=
  mkState (handlers_ s) (f (timers s)) (next_timer s) (clock s) (trace s).
Definition emit (e : Event) (s : State) :=
  mkState (handlers_ s) (timers s) (next_timer s) (clock s) (trace s ++ [e]).

Definition log (sev : Severity) (text : string) : M State unit :=
  modify (emit (EvLog sev text)).

(** *** Boost.Asio deadline timer, as documented *)

(** [timer.cancel()]: an outstanding wait completes with
    [operation_aborted]; a wait whose handler is already queued is not
    affected and keeps its error code. *)
Definition cancel_wait (w : wait_state) : wait_state :=
  match w with
  | Waiting id link => Queued id link operation_aborted
  | _ => w
  end.

Definition timer_cancel (t : timer_id) (ts : gmap timer_id Timer) :=
  alter (λ tm, mkTimer (expiry tm) (cancel_wait (wait tm))) t ts.

(** [timer.expires_from_now(d)]: cancels any outstanding wait and sets the
    expiry relative to the current time. *)
Definition expires_from_now (t : timer_id) (d : Z) : M State unit :=
  modify (λ s, set_timers
    (alter (λ tm, mkTimer (clock s + d) (cancel_wait (wait tm))) t) s).

(** [timer.async_wait(std::bind(&TrackingService::timeout, this, id, link, _1))]. *)
Definition async_wait (t : timer_id) (id : uuid) (link : Link) : M State unit :=
  modify (set_timers (alter (λ tm, mkTimer (expiry tm) (Waiting id link)) t)).

(** [std::make_unique<Request>(service_, id, link, handler)]: the request
    constructs its timer on [service_]. *)
Definition make_request (id : uuid) (link : Link) (handler : TrackingHandler)
    : M State Request :=
  λ s, let t := next_timer s in
       (Ok (mkRequest t id link handler),
        mkState (handlers_ s) (<[t := mkTimer 0 Idle]> (timers s))
                (N.succ t) (clock s) (trace s)).

(** [~Request()]: destroying the timer cancels its outstanding wait. *)
Definition destroy (r : Request) : M State unit :=
  modify (set_timers (timer_cancel (req_timer r))).

(** *** The methods of TrackingService.cpp *)

(** [handlers_.at(id)] *)
Definition at_ (id : uuid) : M State Request :=
  λ s, match handlers_ s !! id with
       | Some r => (Ok r, s)
       | None => (Throw out_of_range, s)
       end.

(** [handlers_.erase(id)] *)
Definition erase (id : uuid) : M State unit :=
  modify (set_handlers (delete id)).

(** [handler->handler(link, arg)] *)
Definition invoke (r : Request) (link : Link) (arg : option Message) : M State unit :=
  modify (emit (EvCall r link arg)).

Definition is_out_of_range (e : exn) : bool :=
  match e with out_of_range => true | _ => false end.

Definition on_message (link : Link) (message : Message) : M State unit :=
  try_catch
    (log TRACE "on_message";;
     handler ← at_ (msg_token message);
     erase (msg_token message);;
     if decide (link ≠ req_link handler) then
       log WARN "[spark] Tracked message receipient != sender";;
       destroy handler
     else
       invoke handler link (Some message);;
       destroy handler)
    is_out_of_range
    (log DEBUG "[spark] Received invalid or expired tracked message").

(** [handlers_[id] = std::move(request)]: a request already stored under
    [id] is destroyed by the assignment. *)
Definition assign (id : uuid) (request : Request) : M State unit :=
  λ s, match handlers_ s !! id with
       | Some old => (destroy old;; modify (set_handlers <[id := request]>)) s
       | None => modify (set_handlers <[id := request]>) s
       end.

Definition register_tracked (link : Link) (id : uuid) (handler : TrackingHandler)
    (timeout : Z) : M State unit :=
  log TRACE "register_tracked";;
  request ← make_request id link handler;
  expires_from_now (req_timer request) timeout;;
  async_wait (req_timer request) id link;;
  assign id request.

Definition timeout (id : uuid) (link : Link) (ec : error_code) : M State unit :=
  if decide (ec ≠ 0) then ret tt
  else
    handler ← at_ id;
    erase id;;
    invoke handler link None;;
    destroy handler.

Definition shutdown : M State unit :=
  modify (λ s, set_timers
    (λ ts, map_fold (λ _ handler acc, timer_cancel (req_timer handler) acc)
                    ts (handlers_ s)) s).

Definition on_link_up (link : Link) : M State unit := ret tt.

Definition on_link_down (link : Link) : M State unit := ret tt.

(** *** The io_service that drives the timers *)

(** Time passes. *)
Definition advance (d : N) : M State unit :=
  modify (λ s, mkState (handlers_ s) (timers s) (next_timer s)
                       (clock s + Z.of_N d) (trace s)).

(** The deadline of a waiting timer has passed: its completion handler is
    queued with [success].  Nothing happens before the deadline, or when no
    wait is outstanding. *)
Definition expire (t : timer_id) : M State unit :=
  modify (λ s,
    match timers s !! t with
    | Some (mkTimer e (Waiting id link)) =>
        if decide (e ≤ clock s)
        then set_timers <[t := mkTimer e (Queued id link success)]> s
        else s
    | _ => s
    end).

(** A queued completion handler runs: [timeout(id, link, ec)]. *)
Definition dispatch (t : timer_id) : M State unit :=
  λ s, match timers s !! t with
       | Some (mkTimer e (Queued id link ec)) =>
           timeout id link ec (set_timers <[t := mkTimer e Idle]> s)
       | _ => (Ok tt, s)
       end.

(** What can happen to the service: calls of its public methods by the
    other components, a direct call of [timeout] with arbitrary arguments,
    and the steps of the [io_service]. *)
Inductive op :=
  | OpOnMessage (link : Link) (message : Message)
  | OpRegister (link : Link) (id : uuid) (handler : TrackingHandler) (timeout : Z)
  | OpTimeout (id : uuid) (link : Link) (ec : error_code)
  | OpShutdown
  | OpLinkUp (link : Link)
  | OpLinkDown (link : Link)
  | OpAdvance (d : N)
  | OpExpire (t : timer_id)
  | OpDispatch (t : timer_id).

Definition exec (o : op) : M State unit :=
  match o with
  | OpOnMessage link message => on_message link message
  | OpRegister link id handler d => register_tracked link id handler d
  | OpTimeout id link ec => timeout id link ec
  | OpShutdown => shutdown
  | OpLinkUp link => on_link_up link
  | OpLinkDown link => on_link_down link
  | OpAdvance d => advance d
  | OpExpire t => expire t
  | OpDispatch t => dispatch t
  end.

(** A schedule is run to its end; an exception that leaves a method is the
    caller's to handle and the members stay as the throw left them. *)
Fixpoint run (ops : list op) (s : State) : State :=
  match ops with
  | [] => s
  | o :: ops' => run ops' (exec o s).2
  end.

(** [timeout] is the completion handler of the timers: in a driven schedule
    it runs only through [OpDispatch]. *)
Definition driven (o : op) : bool :=
  match o with OpTimeout _ _ _ => false | _ => true end.

(** *** Observations on a state *)

Definition is_call_of (r : Request) (e : Event) : bool :=
  match e with
  | EvCall r' _ _ => bool_decide (r' = r)
  | EvLog _ _ => false
  end.

(** Number of times the callback of request [r] has run. *)
Definition calls_of (r : Request) (tr : list Event) : nat :=
  length (filter (λ e, is_call_of r e = true) tr).

(** The callbacks invoked, without the log lines. *)
Definition is_call (e : Event) : bool :=
  match e with EvCall _ _ _ => true | EvLog _ _ => false end.

Definition calls (tr : list Event) : list Event :=
  filter (λ e, is_call e = true) tr.

(** [r] is the record stored in the correlation table (under its token). *)
Definition pending (r : Request) (s : State) : Prop :=
  handlers_ s !! req_id r = Some r.

Definition absent (r : Request) (s : State) : Prop :=
  ∀ k, handlers_ s !! k ≠ Some r.

(** The operations that take the record of token [id] out of the table. *)
Definition consumes (id : uuid) (o : op) (s : State) : bool :=
  match o with
  | OpOnMessage _ message => bool_decide (msg_token message = id)
  | OpRegister _ id' _ _ => bool_decide (id' = id)
  | OpTimeout id' _ ec => bool_decide (id' = id ∧ ec = 0)
  | OpDispatch t =>
      match timers s !! t with
      | Some (mkTimer _ (Queued id' _ ec)) => bool_decide (id' = id ∧ ec = 0)
      | _ => false
      end
  | _ => false
  end.

(** *** Predicates of the specification *)

(** The state right after [handlers_.erase(id)]. *)
Definition erased (id : uuid) (s : State) : State := set_handlers (delete id) s.

(** The request built by [register_tracked] in state [s]. *)
Definition new_request (link : Link) (id : uuid) (h : TrackingHandler) (s : State) :=
  mkRequest (next_timer s) id link h.

(** The state in which [register_tracked] returns. *)
Definition registered (link : Link) (id : uuid) (h : TrackingHandler) (d : Z)
    (s : State) : State :=
  let t := next_timer s in
  let armed := <[t := mkTimer (clock s + d) (Waiting id link)]> (timers s) in
  mkState (<[id := new_request link id h s]> (handlers_ s))
          (match handlers_ s !! id with
           | Some old => timer_cancel (req_timer old) armed
           | None => armed
           end)
          (N.succ t) (clock s)
          (trace s ++ [EvLog TRACE "register_tracked"]).

(** The invocations of the callback of [r], in order. *)
Definition calls_to (r : Request) (tr : list Event) : list Event :=
  filter (λ e, is_call_of r e = true) tr.

(** A callback receives the timeout marker, or a response that carries the
    token and arrived on the link of the request. *)
Definition good_call (r : Request) (l : Link) (a : option Message) : Prop :=
  a = None ∨ ∃ m, a = Some m ∧ msg_token m = req_id r ∧ l = req_link r.

(** One step keeps the table, takes one record out of it (running its
    callback at most once), or stores a newly built request. *)
Inductive effect (s s' : State) : Prop :=
  | eff_keep :
      handlers_ s' = handlers_ s → next_timer s' = next_timer s →
      calls (trace s') = calls (trace s) → effect s s'
  | eff_remove id r cs :
      handlers_ s !! id = Some r →
      handlers_ s' = delete id (handlers_ s) → next_timer s' = next_timer s →
      calls (trace s') = calls (trace s) ++ cs →
      (cs = [] ∨ ∃ l a, cs = [EvCall r l a] ∧ (req_id r = id → good_call r l a)) →
      effect s s'
  | eff_insert link id h :
      handlers_ s' = <[id := new_request link id h s]> (handlers_ s) →
      next_timer s' = N.succ (next_timer s) →
      calls (trace s') = calls (trace s) → effect s s'.

(** Records are stored under their own token, own a timer that has been
    allocated, and their callback has not run; a request that is yet to be
    built has not run either. *)
Definition table_wf (s : State) : Prop :=
  (∀ k r, handlers_ s !! k = Some r →
     req_id r = k ∧ (req_timer r < next_timer s)%N ∧ calls_to r (trace s) = []) ∧
  (∀ r, (next_timer s ≤ req_timer r)%N → calls_to r (trace s) = []).

(** The life of one record: it is in the table and its callback has not
    run, or it has left the table for good and its callback has run at most
    once, with a response or with the timeout marker. *)
Definition once (r : Request) (s : State) : Prop :=
  pending r s ∨
  (absent r s ∧ (req_timer r < next_timer s)%N ∧
   (calls_to r (trace s) = [] ∨
    ∃ l a, calls_to r (trace s) = [EvCall r l a] ∧ good_call r l a)).



(** What [timer.cancel()] does to one timer. *)
Definition cancel_timer (tm : Timer) : Timer :=
  mkTimer (expiry tm) (cancel_wait (wait tm)).

(** A wait that can still end in [timeout(id, _, success)]. *)
Definition live (id : uuid) (w : wait_state) : bool :=
  match w with
  | Idle => false
  | Waiting id' _ => bool_decide (id' = id)
  | Queued id' _ ec => bool_decide (id' = id ∧ ec = 0)
  end.

(** No timer can deliver the timeout of token [id] any more. *)
Definition quiet (id : uuid) (s : State) : Prop :=
  ∀ t tm, timers s !! t = Some tm → live id (wait tm) = false.

(** Every outstanding wait belongs to the record stored under its token. *)
Definition owned_waits (s : State) : Prop :=
  ∀ t tm id l, timers s !! t = Some tm → wait tm = Waiting id l →
    ∃ r, handlers_ s !! id = Some r ∧ req_timer r = t.

(** The invariant of the reachable states. *)
Definition wf (s : State) : Prop := table_wf s ∧ owned_waits s.

(** The state of a record whose timeout can no longer be delivered. *)
Definition silenced (r : Request) (s : State) : Prop :=
  (∀ l, EvCall r l None ∉ trace s) ∧
  ((pending r s ∧ quiet (req_id r) s) ∨
   (absent r s ∧ (req_timer r < next_timer s)%N)).

(** *** A concrete exchange *)

Definition link_a : Link := mkLink 1%N.
Definition link_b : Link := mkLink 2%N.
Definition token : uuid := 7%N.
Definition callback : TrackingHandler := 100%N.
Definition response : Message := mkMessage 3%N 4%N token [].

(** One request tracked on [link_a] with a timeout of 50 ms. *)
Definition request : Request := new_request link_a token callback init.
Definition tracked : State := (register_tracked link_a token callback 50 init).2.

End Spark.

(** ** login RealmService *)

Module Login.

Import Spark.

(** [struct Realm] as [handle_realm_status] fills it.  [population] is a
    [float] that is only copied: its bit pattern. *)
Record Realm := mkRealm {
  realm_id : Z;
  realm_ip : string;
  realm_name : string;
  realm_population : N;
  realm_type : Z;
  realm_flags : Z;
  realm_timezone : Z
}.

(** The FlatBuffers table [em::realm::RealmStatus]: string accessors return
    a pointer that is null for an absent field; scalar accessors return the
    default 0 for an absent field. *)
Record RealmStatus := mkRealmStatus {
  rs_id : Z;
  rs_name : option string;
  rs_ip : option string;
  rs_population : N;
  rs_type : Z;
  rs_flags : Z;
  rs_timezone : Z
}.

Inductive Data := Data_NONE | Data_RealmStatus | Data_RequestRealmStatus.

#[global] Instance Data_eq_dec : EqDecision Data.
Proof. solve_decision. Defined.

(** [em::MessageRoot]: [data()] is read through the [static_cast] to
    [RealmStatus]. *)
Record MessageRoot := mkMessageRoot {
  data_type : Data;
  data : RealmStatus
}.

Section RealmService.

(** [RealmList] is defined outside [src/]: its type and [add_realm] are
    parameters. *)
Variable RealmList : Type.
Variable add_realm : Realm → RealmList → RealmList.

Record State := mkState {
  realms_ : RealmList;
  known_realms_ : gmap uuid Z;
  logger_ : list (Severity * string)
}.

Definition log (sev : Severity) (text : string) : M State unit :=
  modify (λ s, mkState (realms_ s) (known_realms_ s) (logger_ s ++ [(sev, text)])).

(** [p->str()] *)
Definition str (p : option string) : M State string :=
  match p with
  | Some v => ret v
  | None => throw null_dereference
  end.

Definition handle_realm_status (link : Link) (root : MessageRoot) : M State unit :=
  log TRACE "handle_realm_status";;
  let msg := data root in
  (if decide (rs_name msg = None ∨ rs_id msg = 0 ∨ rs_ip msg = None)
   then log DEBUG "Failed"
   else ret tt);;
  ip ← str (rs_ip msg);
  name ← str (rs_name msg);
  let realm := mkRealm (rs_id msg) ip name (rs_population msg)
                       (rs_type msg) (rs_flags msg) (rs_timezone msg) in
  modify (λ s, mkState (add_realm realm (realms_ s)) (known_realms_ s) (logger_ s));;
  modify (λ s, mkState (realms_ s) (<[link_uuid link := rs_id msg]> (known_realms_ s))
                       (logger_ s)).

Definition handle_message (link : Link) (root : MessageRoot) : M State unit :=
  match data_type root with
  | Data_RealmStatus => handle_realm_status link root
  | _ => ret tt
  end.

End RealmService.

(** *** Concrete status messages *)

(** A realm list that keeps the realms in the order [add_realm] received
    them, most recent first. *)
Definition realm_log := list Realm.
Definition start : State realm_log := mkState realm_log [] ∅ [].

Definition gateway : Link := mkLink 9%N.

Definition status_without_name : RealmStatus :=
  mkRealmStatus 1 None (Some "10.0.0.1") 0%N 0 0 0.
Definition status_without_ip : RealmStatus :=
  mkRealmStatus 1 (Some "Ember") None 0%N 0 0 0.
Definition status_without_id : RealmStatus :=
  mkRealmStatus 0 (Some "Ember") (Some "10.0.0.1") 0%N 0 0 0.

End Login.

(** ** spark::TrackingService: further predicates *)

Module SparkMore.

Import Spark.

(** Every timer of [s'] that can still time out token [id] was already
    such a timer in [s], unchanged. *)
Definition shrinks (id : uuid) (s s' : State) : Prop :=
  ∀ t tm, timers s' !! t = Some tm → live id (wait tm) = true →
    timers s !! t = Some tm.

(** The only timer that can still time out the token of [r] is [tm0], the
    timer of [r] itself. *)
Definition sole_wait (r : Request) (tm0 : Timer) (s : State) : Prop :=
  ∀ t tm, timers s !! t = Some tm → live (req_id r) (wait tm) = true →
    t = req_timer r ∧ tm = tm0.

(** Before its deadline a request has not been timed out. *)
Definition punctual (r : Request) (deadline : Z) (tm0 : Timer) (s : State) : Prop :=
  deadline ≤ clock s ∨
  ((∀ l, EvCall r l None ∉ trace s) ∧
   ((pending r s ∧ sole_wait r tm0 s) ∨
    (absent r s ∧ (req_timer r < next_timer s)%N))).

(** No two records of the table share a timer. *)
Definition distinct_timers (s : State) : Prop :=
  ∀ k k' r r', handlers_ s !! k = Some r → handlers_ s !! k' = Some r' →
    req_timer r = req_timer r' → k = k'.

End SparkMore.

(** ** login RealmService: link events and discovery *)

Module RealmLinks.

Import Spark Login.

(** [spark::LinkState] as [handle_link_event] switches on it. *)
Inductive LinkState := LINK_UP | LINK_DOWN.

(** [em::Service]: the tag this file uses, and the others. *)
Inductive Service := Service_RealmStatus | Service_other (tag : N).

(** The message that [request_realm_status] builds with
    [CreateMessageRoot(fbb, service, 0, 0, data_type, data)]: the two zeros
    are the tracking id (absent) and its time to live; the
    [RequestRealmStatus] table has no fields. *)
Record Outgoing := mkOutgoing {
  out_service : Service;
  out_tracking_id : Z;
  out_tracking_ttl : Z;
  out_data_type : Data
}.

(** [messaging::multicast::LocateAnswer]: the fields [service_located]
    reads; [ip()] is null when the field is absent. *)
Record LocateAnswer := mkLocateAnswer {
  la_ip : option string;
  la_port : Z
}.

Section Handlers.

(** The realm list and the Spark service are defined outside [src/]:
    [add_realm], [get_realm], the [OFFLINE] flag and the outcome of
    [spark_.send] (true for [Result::OK]) are parameters; the calls made on
    [spark_] are recorded. *)
Variable RealmList : Type.
Variable add_realm : Realm → RealmList → RealmList.
Variable get_realm : Z → RealmList → Realm.
Variable OFFLINE : Z.
Variable send_ok : Link → Outgoing → bool.

Record Service_ := mkService {
  realm_state : State RealmList;
  sent : list (Link * Outgoing);
  connects : list (string * Z)
}.

(** A step that only touches the members modelled in [Login.State]. *)
Definition on_realm_state {A} (m : M (State RealmList) A) : M Service_ A :=
  λ w, match m (realm_state w) with
       | (res, s') => (res, mkService s' (sent w) (connects w))
       end.

Definition log (sev : Severity) (text : string) : M Service_ unit :=
  on_realm_state (Login.log RealmList sev text).

(** [spark_.send(link, fbb)] *)
Definition send (link : Link) (msg : Outgoing) : M Service_ bool :=
  λ w, (Ok (send_ok link msg),
        mkService (realm_state w) (sent w ++ [(link, msg)]) (connects w)).

(** [spark_.connect(host, port)] *)
Definition connect (host : string) (port : Z) : M Service_ unit :=
  modify (λ w, mkService (realm_state w) (sent w) (connects w ++ [(host, port)])).

Definition mark_realm_offline (link : Link) : M (State RealmList) unit :=
  λ s, match known_realms_ RealmList s !! link_uuid link with
       | None => (Ok tt, s)
       | Some id =>
           let realm := get_realm id (realms_ RealmList s) in
           let realm' :=
             mkRealm (realm_id realm) (realm_ip realm) (realm_name realm)
                     (realm_population realm) (realm_type realm)
                     (Z.lor (realm_flags realm) OFFLINE) (realm_timezone realm) in
           (Ok tt, mkState RealmList (add_realm realm' (realms_ RealmList s))
                     (known_realms_ RealmList s) (logger_ RealmList s))
       end.

Definition request_realm_status (link : Link) : M Service_ unit :=
  log TRACE "request_realm_status";;
  let msg := mkOutgoing Service_RealmStatus 0 0 Data_RequestRealmStatus in
  ok ← send link msg;
  if negb ok then log DEBUG "Failed" else ret tt.

Definition handle_link_event (link : Link) (event : LinkState) : M Service_ unit :=
  log TRACE "handle_link_event";;
  match event with
  | LINK_UP =>
      log INFO "Link to realm gateway established";;
      request_realm_status link
  | LINK_DOWN =>
      log INFO "Link to realm gateway closed";;
      on_realm_state (mark_realm_offline link)
  end.

(** [message->ip()->str()] *)
Definition ip_str (message : LocateAnswer) : M Service_ string :=
  match la_ip message with
  | Some v => ret v
  | None => throw null_dereference
  end.

Definition service_located (message : LocateAnswer) : M Service_ unit :=
  shown ← ip_str message;
  log DEBUG ("Located realm gateway at " +:+ shown);;
  host ← ip_str message;
  connect host (la_port message).

End Handlers.

(** A realm list that stores each realm under its id. *)
Definition realm_table := gmap Z Realm.
Definition table_add (r : Realm) (t : realm_table) : realm_table := <[realm_id r := r]> t.
Definition no_realm : Realm := mkRealm 0 "" "" 0%N 0 0 0.
Definition table_get (id : Z) (t : realm_table) : Realm := default no_realm (t !! id).

Definition status_complete : RealmStatus :=
  mkRealmStatus 5 (Some "Ember") (Some "10.0.0.1") 0%N 1 4 2.

(** The state after [gateway] has reported realm 5. *)
Definition reported_state : State realm_table :=
  mkState realm_table (table_add (mkRealm 5 "10.0.0.1" "Ember" 0%N 1 4 2) ∅)
          {[link_uuid gateway := 5]} [].

Definition world0 : Service_ realm_table :=
  mkService realm_table (mkState realm_table ∅ ∅ []) [] [].

End RealmLinks.

(** ** gateway main.cpp *)

Module Gateway.

(** The fields of [Realm] that [category_name] reads. *)
Record Realm := mkRealm { category : Z; region : Z }.

(** A [dbc::Cfg_Categories] record: the fields [category_name] reads,
    [name.en_gb] among the localised names. *)
Record Cfg_Categories := mkCfg {
  cc_category : Z;
  cc_region : Z;
  cc_name_en_gb : string
}.

(** What a call yields: a value, or [std::invalid_argument(what)]. *)
Inductive Outcome (A : Type) :=
  | Returned (a : A)
  | invalid_argument (what : string).
Arguments Returned {A} a.
Arguments invalid_argument {A} what.

Definition matches (realm : Realm) (record : Cfg_Categories) : Prop :=
  cc_category record = category realm ∧ cc_region record = region realm.

#[global] Instance matches_dec realm record : Decision (matches realm record).
Proof. unfold matches. apply _. Defined.

(** [dbc] is the [DBCMap] as the range-for visits it: the keys and records
    in iteration order. *)
Fixpoint category_name (realm : Realm) (dbc : list (Z * Cfg_Categories))
    : Outcome string :=
  match dbc with
  | [] => invalid_argument "Unknown category/region combination in database"
  | (k, record) :: rest =>
      if decide (cc_category record = category realm ∧ cc_region record = region realm)
      then Returned (cc_name_en_gb record)
      else category_name realm rest
  end.

Definition sample_dbc : list (Z * Cfg_Categories) :=
  [(1, mkCfg 1 1 "Development"); (2, mkCfg 2 1 "United States"); (3, mkCfg 2 2 "Europe")].

End Gateway.

(** ** protocol client PlayerLogin *)

Module Protocol.

(** [protocol::State], the values [PlayerLogin] uses. *)
Inductive State := INITIAL | DONE | ERRORED.

#[global] Instance State_eq_dec : EqDecision State.
Proof. solve_decision. Defined.

(** [be::little_uint64_at] in memory: [n] bytes, least significant first. *)
Fixpoint le_bytes (n : nat) (v : Z) : list Z :=
  match n with
  | O => []
  | S n' => v `mod` 256 :: le_bytes n' (v `div` 256)
  end.

Fixpoint le_value (bytes : list Z) : Z :=
  match bytes with
  | [] => 0
  | b :: rest => b + 256 * le_value rest
  end.

Record PlayerLogin := mkPlayerLogin {
  state_ : State;
  character_id : Z
}.

Section Stream.

(** [spark::BinaryStream] is defined outside [src/]: extracting [n] bytes
    yields them, or throws [spark::exception] ([None]), and leaves a
    stream; inserting appends bytes.  [asserts] tells whether
    [BOOST_ASSERT_MSG] is compiled in. *)
Variable BinaryStream : Type.
Variable get : nat → BinaryStream → option (list Z) * BinaryStream.
Variable put : list Z → BinaryStream → BinaryStream.
Variable asserts : bool.

(** [None] is the failed assertion; otherwise the returned state, the
    packet and the stream. *)
Definition read_from_stream (p : PlayerLogin) (stream : BinaryStream)
    : option (State * PlayerLogin * BinaryStream) :=
  if asserts && bool_decide (state_ p = DONE) then None
  else
    match get 8 stream with
    | (Some bytes, stream') =>
        Some (DONE, mkPlayerLogin DONE (le_value bytes), stream')
    | (None, stream') => Some (ERRORED, p, stream')
    end.

Definition write_to_stream (p : PlayerLogin) (stream : BinaryStream) : BinaryStream :=
  put (le_bytes 8 (character_id p)) stream.

End Stream.

(** A stream held as the list of its unread bytes. *)
Definition fifo_get (n : nat) (st : list Z) : option (list Z) * list Z :=
  if decide (n ≤ length st)%nat then (Some (take n st), drop n st) else (None, st).

End Protocol.

(** * Properties of the tracking service *)

Module TrackingSpec.

Import Spark.

(** ** Equations of the methods *)

Lemma on_message_absent link m s :
  handlers_ s !! msg_token m = None →
  on_message link m s =
    (Ok tt, emit (EvLog DEBUG "[spark] Received invalid or expired tracked message")
                 (emit (EvLog TRACE "on_message") s)).
Proof.
  intros H. unfold on_message, try_catch, mbind, M_bind, bind, at_, log, modify. cbn.
  rewrite H. reflexivity.
Qed.

Lemma on_message_present link m s r :
  handlers_ s !! msg_token m = Some r →
  on_message link m s =
    (if decide (link ≠ req_link r)
     then log WARN "[spark] Tracked message receipient != sender";; destroy r
     else invoke r link (Some m);; destroy r)
      (erased (msg_token m) (emit (EvLog TRACE "on_message") s)).
Proof.
  intros H. unfold on_message, try_catch, mbind, M_bind, bind, at_, log, modify. cbn.
  rewrite H. cbn. destruct (decide (link ≠ req_link r)); reflexivity.
Qed.

Lemma on_message_cross link m s r :
  handlers_ s !! msg_token m = Some r → link ≠ req_link r →
  on_message link m s =
    (Ok tt, set_timers (timer_cancel (req_timer r))
              (emit (EvLog WARN "[spark] Tracked message receipient != sender")
                 (erased (msg_token m) (emit (EvLog TRACE "on_message") s)))).
Proof.
  intros H Hl. rewrite (on_message_present _ _ _ _ H). by rewrite decide_True.
Qed.

Lemma on_message_match link m s r :
  handlers_ s !! msg_token m = Some r → link = req_link r →
  on_message link m s =
    (Ok tt, set_timers (timer_cancel (req_timer r))
              (emit (EvCall r link (Some m))
                 (erased (msg_token m) (emit (EvLog TRACE "on_message") s)))).
Proof.
  intros H Hl. rewrite (on_message_present _ _ _ _ H).
  by rewrite decide_False by (intros ?; done).
Qed.

Lemma timeout_cancelled id link ec s : ec ≠ 0 → timeout id link ec s = (Ok tt, s).
Proof. intros H. unfold timeout. rewrite decide_True by done. reflexivity. Qed.

Lemma timeout_absent id link s :
  handlers_ s !! id = None → timeout id link 0 s = (Throw out_of_range, s).
Proof.
  intros H. unfold timeout. case_decide; [done|].
  unfold mbind, M_bind, bind, at_. cbn. rewrite H. reflexivity.
Qed.

Lemma timeout_present id link s r :
  handlers_ s !! id = Some r →
  timeout id link 0 s =
    (Ok tt, set_timers (timer_cancel (req_timer r))
              (emit (EvCall r link None) (erased id s))).
Proof.
  intros H. unfold timeout. case_decide; [done|].
  unfold mbind, M_bind, bind, at_. cbn. rewrite H. reflexivity.
Qed.

Lemma register_tracked_eq link id h d s :
  register_tracked link id h d s = (Ok tt, registered link id h d s).
Proof.
  unfold register_tracked, registered, mbind, M_bind, bind, make_request,
    expires_from_now, async_wait, assign, log, modify, destroy, new_request.
  cbn. destruct (handlers_ s !! id);
    unfold set_timers, set_handlers, mbind, M_bind, bind, modify, timer_cancel; cbn;
    rewrite !alter_insert_eq; reflexivity.
Qed.

Lemma dispatch_eq t s :
  dispatch t s =
    match timers s !! t with
    | Some (mkTimer e (Queued id link ec)) =>
        timeout id link ec (set_timers <[t := mkTimer e Idle]> s)
    | _ => (Ok tt, s)
    end.
Proof. reflexivity. Qed.

(** ** Callbacks in a trace *)

Lemma calls_of_length r tr : calls_of r tr = length (calls_to r tr).
Proof. reflexivity. Qed.

Lemma calls_to_calls r tr : calls_to r (calls tr) = calls_to r tr.
Proof.
  unfold calls_to, calls. induction tr as [|e tr IH]; [done|].
  destruct e as [sev txt|r' l a].
  - rewrite !filter_cons_False by (cbn; congruence). done.
  - rewrite (filter_cons_True (λ e, is_call e = true)) by done.
    destruct (decide (r' = r)) as [->|Hne].
    + rewrite !filter_cons_True by (cbn; by rewrite bool_decide_true). by rewrite IH.
    + rewrite !filter_cons_False by (cbn; by rewrite bool_decide_false). done.
Qed.

Lemma calls_to_app r tr1 tr2 : calls_to r (tr1 ++ tr2) = calls_to r tr1 ++ calls_to r tr2.
Proof. apply filter_app. Qed.

Lemma calls_to_self r l a : calls_to r [EvCall r l a] = [EvCall r l a].
Proof. unfold calls_to. rewrite filter_cons_True by (cbn; by rewrite bool_decide_true). done. Qed.

Lemma calls_to_other r r' l a : r' ≠ r → calls_to r [EvCall r' l a] = [].
Proof.
  intros H. unfold calls_to.
  rewrite filter_cons_False by (cbn; by rewrite bool_decide_false). done.
Qed.

Lemma calls_emit_log sev txt tr : calls (tr ++ [EvLog sev txt]) = calls tr.
Proof.
  unfold calls. rewrite filter_app, filter_cons_False by (cbn; congruence).
  apply app_nil_r.
Qed.

Lemma calls_emit_call r l a tr : calls (tr ++ [EvCall r l a]) = calls tr ++ [EvCall r l a].
Proof. unfold calls. rewrite filter_app, filter_cons_True by done. done. Qed.

Lemma elem_of_calls_to r l a tr : EvCall r l a ∈ tr ↔ EvCall r l a ∈ calls_to r tr.
Proof.
  unfold calls_to. rewrite list_elem_of_filter. cbn.
  rewrite bool_decide_true by done. tauto.
Qed.

(** ** What a step does to the table and to the callbacks *)

Lemma effect_from s0 s s' :
  handlers_ s0 = handlers_ s → next_timer s0 = next_timer s → trace s0 = trace s →
  effect s0 s' → effect s s'.
Proof.
  intros Hh Hn Ht [? ? ?|id r cs ? ? ? ? ?|link id h ? ? ?].
  - apply eff_keep; congruence.
  - eapply eff_remove; [| | | |eassumption]; congruence.
  - apply (eff_insert _ _ link id h); unfold new_request in *; congruence.
Qed.

Lemma timeout_effect id link ec s : effect s (timeout id link ec s).2.
Proof.
  destruct (decide (ec = 0)) as [->|Hec].
  - destruct (handlers_ s !! id) as [r|] eqn:Hr.
    + rewrite (timeout_present _ _ _ _ Hr). cbn.
      eapply (eff_remove _ _ id r); [done|done|done| |].
      * cbn. apply calls_emit_call.
      * right. exists link, None. split; [done|]. intros _. by left.
    + rewrite (timeout_absent _ _ _ Hr). by apply eff_keep.
  - rewrite timeout_cancelled by done. by apply eff_keep.
Qed.

Lemma on_message_effect link m s : effect s (on_message link m s).2.
Proof.
  destruct (handlers_ s !! msg_token m) as [r|] eqn:Hr.
  - destruct (decide (link = req_link r)) as [Hl|Hl].
    + rewrite (on_message_match _ _ _ _ Hr Hl).
      eapply (eff_remove _ _ (msg_token m) r); [done|done|done| |].
      * cbn. rewrite calls_emit_call, calls_emit_log. done.
      * right. exists link, (Some m). split; [done|]. intros Hid. right. by exists m.
    + rewrite (on_message_cross _ _ _ _ Hr Hl).
      eapply (eff_remove _ _ (msg_token m) r []); [done|done|done| |by left].
      cbn. rewrite app_nil_r, !calls_emit_log. done.
  - rewrite (on_message_absent _ _ _ Hr). apply eff_keep; cbn; try done.
    by rewrite !calls_emit_log.
Qed.

Lemma exec_effect o s : effect s (exec o s).2.
Proof.
  destruct o as [link m|link id h d|id link ec| | | |d|t|t]; cbn [exec].
  - apply on_message_effect.
  - rewrite register_tracked_eq. apply (eff_insert _ _ link id h); cbn; try done.
    apply calls_emit_log.
  - apply timeout_effect.
  - by apply eff_keep.
  - by apply eff_keep.
  - by apply eff_keep.
  - by apply eff_keep.
  - unfold expire, modify. cbn.
    destruct (timers s !! t) as [[e [|id l|id l ec]]|]; try by apply eff_keep.
    case_decide; by apply eff_keep.
  - rewrite dispatch_eq.
    destruct (timers s !! t) as [[e [|id l|id l ec]]|]; try by apply eff_keep.
    eapply effect_from; [| | |apply timeout_effect]; done.
Qed.

(** ** Invariants of the correlation table *)

Lemma calls_to_step r s s' cs :
  calls (trace s') = calls (trace s) ++ cs →
  calls_to r (trace s') = calls_to r (trace s) ++ calls_to r cs.
Proof.
  intros H. rewrite <- (calls_to_calls r (trace s')), H, calls_to_app.
  by rewrite calls_to_calls.
Qed.

Lemma calls_to_keep r s s' :
  calls (trace s') = calls (trace s) → calls_to r (trace s') = calls_to r (trace s).
Proof.
  intros H. rewrite <- (calls_to_calls r (trace s')), H. apply calls_to_calls.
Qed.

Lemma calls_to_removed r r0 (cs : list Event) (P : Link → option Message → Prop) :
  r0 ≠ r → (cs = [] ∨ ∃ l a, cs = [EvCall r0 l a] ∧ P l a) → calls_to r cs = [].
Proof.
  intros Hne [->|(l & a & -> & _)]; [done|]. by apply calls_to_other.
Qed.

Lemma effect_table_wf s s' : effect s s' → table_wf s → table_wf s'.
Proof.
  intros [Hh Hn Hc|id r cs Hr Hh Hn Hc Hcs|link id h Hh Hn Hc] [Htab Hfresh].
  - split.
    + intros k r. rewrite Hh, Hn, (calls_to_keep _ _ _ Hc). apply Htab.
    + intros r. rewrite Hn, (calls_to_keep _ _ _ Hc). apply Hfresh.
  - destruct (Htab _ _ Hr) as (Hid & Hlt & _). split.
    + intros k r0. rewrite Hh, Hn, lookup_delete_Some. intros [Hk Hr0].
      destruct (Htab _ _ Hr0) as (Hid0 & Hlt0 & Hc0). split_and!; [done..|].
      rewrite (calls_to_step _ _ _ _ Hc), Hc0. cbn.
      eapply calls_to_removed; [|exact Hcs]. congruence.
    + intros r0. rewrite Hn. intros Hge.
      rewrite (calls_to_step _ _ _ _ Hc), (Hfresh _ Hge). cbn.
      eapply calls_to_removed; [|exact Hcs]. intros ->. lia.
  - split.
    + intros k r0. rewrite Hh, Hn, (calls_to_keep _ _ _ Hc), lookup_insert_Some.
      intros [[<- <-]|[Hk Hr0]].
      * cbn. split_and!; [done|lia|]. apply Hfresh. cbn. lia.
      * destruct (Htab _ _ Hr0) as (? & ? & ?). split_and!; [done|lia|done].
    + intros r0. rewrite Hn, (calls_to_keep _ _ _ Hc). intros Hge. apply Hfresh. lia.
Qed.

Lemma effect_absent r s s' :
  effect s s' → table_wf s → absent r s → (req_timer r < next_timer s)%N →
  absent r s' ∧ (req_timer r < next_timer s')%N ∧
  calls_to r (trace s') = calls_to r (trace s).
Proof.
  intros [Hh Hn Hc|id r0 cs Hr Hh Hn Hc Hcs|link id h Hh Hn Hc] [Htab Hfresh] Habs Hlt.
  - split_and!; [|lia|by apply calls_to_keep]. intros k. rewrite Hh. apply Habs.
  - split_and!; [|lia|].
    + intros k. rewrite Hh, lookup_delete_Some. intros [_ ?]. by eapply Habs.
    + assert (r0 ≠ r) as Hne by (intros ->; by eapply Habs).
      rewrite (calls_to_step _ _ _ _ Hc), (calls_to_removed r r0 cs _ Hne Hcs).
      apply app_nil_r.
  - split_and!; [|lia|by apply calls_to_keep].
    intros k. rewrite Hh, lookup_insert_Some. intros [[_ Heq]|[_ ?]].
    + subst r. cbn in Hlt. lia.
    + by eapply Habs.
Qed.

Lemma effect_once r s s' : effect s s' → table_wf s → once r s → once r s'.
Proof.
  intros Heff Hwf [Hp|(Habs & Hlt & Hc)].
  - destruct Hwf as [Htab Hfresh]. destruct (Htab _ _ Hp) as (_ & Hlt & Hc0).
    destruct Heff as [Hh Hn Hc|id r0 cs Hr Hh Hn Hc Hcs|link id h Hh Hn Hc].
    + left. unfold pending. by rewrite Hh.
    + destruct (decide (id = req_id r)) as [->|Hne].
      * assert (r0 = r) as -> by (unfold pending in Hp; congruence).
        right. split_and!; [|lia|].
        -- intros k. rewrite Hh, lookup_delete_Some. intros [Hk Hr0].
           by destruct (Htab _ _ Hr0) as (? & _).
        -- rewrite (calls_to_step _ _ _ _ Hc), Hc0. cbn.
           destruct Hcs as [->|(l & a & -> & Hg)]; [by left|].
           right. exists l, a. split; [apply calls_to_self|by apply Hg].
      * left. unfold pending. by rewrite Hh, lookup_delete_ne.
    + destruct (decide (id = req_id r)) as [->|Hne].
      * right. split_and!; [|lia|].
        -- intros k. rewrite Hh, lookup_insert_Some. intros [[_ Heq]|[Hk Hr0]].
           ++ rewrite <- Heq in Hlt. cbn in Hlt. lia.
           ++ by destruct (Htab _ _ Hr0) as (? & _).
        -- left. by rewrite (calls_to_keep _ _ _ Hc).
      * left. unfold pending. by rewrite Hh, lookup_insert_ne.
  - destruct (effect_absent r s s' Heff Hwf Habs Hlt) as (? & ? & Heq).
    right. split_and!; [done..|]. by rewrite Heq.
Qed.

Lemma table_wf_init : table_wf init.
Proof. split; [intros k r; cbn; by rewrite lookup_empty|done]. Qed.

Lemma exec_table_wf o s : table_wf s → table_wf (exec o s).2.
Proof. apply effect_table_wf, exec_effect. Qed.

Lemma run_table_wf ops s : table_wf s → table_wf (run ops s).
Proof.
  revert s. induction ops as [|o ops IH]; intros s Hwf; [done|].
  cbn. by apply IH, exec_table_wf.
Qed.

Lemma run_once r ops s : table_wf s → once r s → once r (run ops s).
Proof.
  revert s. induction ops as [|o ops IH]; intros s Hwf Ho; [done|].
  cbn. apply IH; [by apply exec_table_wf|].
  eapply effect_once; [apply exec_effect|done..].
Qed.

Lemma run_app ops1 ops2 s : run (ops1 ++ ops2) s = run ops2 (run ops1 s).
Proof. revert s. induction ops1 as [|o ops1 IH]; intros s; [done|]. cbn. apply IH. Qed.

Lemma run_absent r ops s :
  table_wf s → absent r s → (req_timer r < next_timer s)%N →
  absent r (run ops s) ∧ calls_to r (trace (run ops s)) = calls_to r (trace s).
Proof.
  revert s. induction ops as [|o ops IH]; intros s Hwf Habs Hlt; [done|].
  destruct (effect_absent r s _ (exec_effect o s) Hwf Habs Hlt) as (Ha & Hl & Hc).
  cbn. destruct (IH _ (exec_table_wf o s Hwf) Ha Hl) as (? & ?).
  split; [done|congruence].
Qed.

(** ** Timers *)

Lemma cancel_wait_idem w : cancel_wait (cancel_wait w) = cancel_wait w.
Proof. by destruct w. Qed.

Lemma cancel_wait_not_waiting w id l : cancel_wait w ≠ Waiting id l.
Proof. by destruct w. Qed.

Lemma live_cancel id w : live id w = false → live id (cancel_wait w) = false.
Proof.
  destruct w as [|id' l|id' l ec]; cbn; try done.
  intros _. apply bool_decide_false. intros [_ ?]. done.
Qed.

Lemma lookup_timer_cancel t0 ts t :
  timer_cancel t0 ts !! t =
    if decide (t0 = t) then cancel_timer <$> ts !! t else ts !! t.
Proof. unfold timer_cancel. rewrite lookup_alter. case_decide; by subst. Qed.

Lemma shutdown_timers s :
  (∀ t, timers (shutdown s).2 !! t = timers s !! t ∨
        timers (shutdown s).2 !! t = cancel_timer <$> timers s !! t) ∧
  (∀ k r, handlers_ s !! k = Some r →
     timers (shutdown s).2 !! req_timer r = cancel_timer <$> timers s !! req_timer r).
Proof.
  unfold shutdown, modify. cbn.
  apply (map_fold_weak_ind
    (λ acc (m : gmap uuid Request),
       (∀ t, acc !! t = timers s !! t ∨ acc !! t = cancel_timer <$> timers s !! t) ∧
       (∀ k r, m !! k = Some r →
          acc !! req_timer r = cancel_timer <$> timers s !! req_timer r))).
  - split; [by left|]. intros k r. by rewrite lookup_empty.
  - intros i x m acc Hi [IH1 IH2].
    assert (∀ t, timer_cancel (req_timer x) acc !! t = timers s !! t ∨
                 timer_cancel (req_timer x) acc !! t = cancel_timer <$> timers s !! t)
      as H1.
    { intros t. rewrite lookup_timer_cancel. case_decide; [|apply IH1].
      right. destruct (IH1 t) as [->| ->]; [done|].
      destruct (timers s !! t) as [tm|]; [|done]. cbn. f_equal.
      unfold cancel_timer. cbn. by rewrite cancel_wait_idem. }
    split; [exact H1|].
    intros k r. rewrite lookup_insert_Some. intros [[_ <-]|[_ Hr]].
    + rewrite lookup_timer_cancel, decide_True by done.
      destruct (IH1 (req_timer x)) as [->| ->]; [done|].
      destruct (timers s !! req_timer x) as [tm|]; [|done]. cbn. f_equal.
      unfold cancel_timer. cbn. by rewrite cancel_wait_idem.
    + rewrite lookup_timer_cancel. case_decide as Heq; [|by eapply IH2].
      rewrite (IH2 _ _ Hr).
      destruct (timers s !! req_timer r) as [tm|]; [|done]. cbn. f_equal.
      unfold cancel_timer. cbn. by rewrite cancel_wait_idem.
Qed.

Lemma shutdown_eq s :
  (shutdown s).1 = Ok tt ∧ handlers_ (shutdown s).2 = handlers_ s ∧
  next_timer (shutdown s).2 = next_timer s ∧ clock (shutdown s).2 = clock s ∧
  trace (shutdown s).2 = trace s.
Proof. done. Qed.

(** After [shutdown] nothing is left waiting. *)
Lemma shutdown_no_waiting s t tm id l :
  owned_waits s → timers (shutdown s).2 !! t = Some tm → wait tm ≠ Waiting id l.
Proof.
  intros Hown Ht Hw. destruct (shutdown_timers s) as [H1 H2].
  destruct (H1 t) as [Heq|Heq]; rewrite Heq in Ht.
  - destruct (Hown _ _ _ _ Ht Hw) as (r & Hr & <-).
    rewrite (H2 _ _ Hr), Ht in Heq. cbn in Heq. injection Heq as Heq.
    apply (f_equal wait) in Heq. cbn in Heq. rewrite Hw in Heq. done.
  - destruct (timers s !! t) as [tm0|]; [|done]. cbn in Ht. injection Ht as <-.
    cbn in Hw. by apply cancel_wait_not_waiting in Hw.
Qed.

Lemma shutdown_quiet id s :
  owned_waits s →
  (∀ t tm l, timers s !! t = Some tm → wait tm ≠ Queued id l 0) →
  quiet id (shutdown s).2.
Proof.
  intros Hown Hexp t tm Ht.
  destruct (wait tm) as [|id' l|id' l ec] eqn:Hw; cbn; [done| |].
  - by destruct (shutdown_no_waiting s t tm id' l Hown Ht).
  - apply bool_decide_false. intros [-> ->].
    destruct (shutdown_timers s) as [H1 _].
    destruct (H1 t) as [Heq|Heq]; rewrite Heq in Ht.
    + by eapply Hexp.
    + destruct (timers s !! t) as [tm0|] eqn:Ht0; [|done]. cbn in Ht.
      injection Ht as <-. cbn in Hw.
      destruct (wait tm0) as [|id0 l0|id0 l0 ec0] eqn:Hw0; cbn in Hw; try done.
      injection Hw as -> -> ->. by eapply Hexp.
Qed.

Lemma owned_remove s s' id0 r0 :
  owned_waits s → handlers_ s !! id0 = Some r0 →
  handlers_ s' = delete id0 (handlers_ s) →
  timers s' = timer_cancel (req_timer r0) (timers s) →
  owned_waits s'.
Proof.
  intros Hown Hr0 Hh Ht t tm id l. rewrite Ht, Hh, lookup_timer_cancel.
  case_decide as Heq.
  - destruct (timers s !! t) as [tm0|]; [|done]. cbn. intros [= <-] Hw.
    cbn in Hw. by apply cancel_wait_not_waiting in Hw.
  - intros Htm Hw. destruct (Hown _ _ _ _ Htm Hw) as (r & Hr & Hrt).
    exists r. split; [|done]. rewrite lookup_delete_ne; [done|].
    intros <-. congruence.
Qed.

Lemma owned_retime s s' t w :
  owned_waits s → handlers_ s' = handlers_ s →
  (∀ id l, w ≠ Waiting id l) →
  (∃ e, timers s' = <[t := mkTimer e w]> (timers s)) →
  owned_waits s'.
Proof.
  intros Hown Hh Hw (e & Ht) t' tm id l. rewrite Ht, Hh, lookup_insert_Some.
  intros [[_ <-]|[_ Htm]] Hwait; [by destruct (Hw id l)|]. by eapply Hown.
Qed.

Lemma timeout_owned id link ec s : owned_waits s → owned_waits (timeout id link ec s).2.
Proof.
  intros Hown. destruct (decide (ec = 0)) as [->|Hec].
  - destruct (handlers_ s !! id) as [r|] eqn:Hr.
    + rewrite (timeout_present _ _ _ _ Hr). by eapply owned_remove.
    + by rewrite (timeout_absent _ _ _ Hr).
  - by rewrite timeout_cancelled.
Qed.

Lemma exec_owned o s : table_wf s → owned_waits s → owned_waits (exec o s).2.
Proof.
  intros [Htab _] Hown.
  destruct o as [link m|link id h d|id link ec| | | |d|t|t]; cbn [exec]; try done.
  - destruct (handlers_ s !! msg_token m) as [r|] eqn:Hr.
    + destruct (decide (link = req_link r)) as [Hl|Hl].
      * rewrite (on_message_match _ _ _ _ Hr Hl). by eapply owned_remove.
      * rewrite (on_message_cross _ _ _ _ Hr Hl). by eapply owned_remove.
    + by rewrite (on_message_absent _ _ _ Hr).
  - rewrite register_tracked_eq. intros t tm id' l'. unfold registered. cbn.
    assert (∀ tm0, <[next_timer s := mkTimer (clock s + d) (Waiting id link)]>
                     (timers s) !! t = Some tm0 → wait tm0 = Waiting id' l' →
              (t = next_timer s ∧ id' = id) ∨
              (∃ r, handlers_ s !! id' = Some r ∧ req_timer r = t)) as Hins.
    { intros tm0. rewrite lookup_insert_Some. intros [[<- <-]|[_ Htm]] Hw.
      - left. cbn in Hw. split; congruence.
      - right. by eapply Hown. }
    destruct (handlers_ s !! id) as [old|] eqn:Hold.
    + rewrite lookup_timer_cancel. case_decide as Heq.
      * destruct (_ !! t) as [tm0|]; [|done]. cbn. intros [= <-] Hw.
        cbn in Hw. by apply cancel_wait_not_waiting in Hw.
      * intros Htm Hw. destruct (Hins _ Htm Hw) as [[-> ->]|(r & Hr & Hrt)].
        -- eexists. by rewrite lookup_insert_eq.
        -- exists r. split; [|done]. rewrite lookup_insert_ne; [done|].
           intros <-. congruence.
    + intros Htm Hw. destruct (Hins _ Htm Hw) as [[-> ->]|(r & Hr & Hrt)].
      * eexists. by rewrite lookup_insert_eq.
      * exists r. split; [|done]. rewrite lookup_insert_ne; [done|].
        intros <-. congruence.
  - by apply timeout_owned.
  - intros t tm id l Ht Hw. by destruct (shutdown_no_waiting s t tm id l Hown Ht).
  - unfold expire, modify. cbn.
    destruct (timers s !! t) as [[e [|id l|id l ec]]|]; try done.
    case_decide; [|done].
    eapply (owned_retime s _ t (Queued id l success)); [done|done|done|by eexists].
  - rewrite dispatch_eq.
    destruct (timers s !! t) as [[e [|id l|id l ec]]|]; try done.
    apply timeout_owned.
    eapply (owned_retime s _ t Idle); [done|done|done|by eexists].
Qed.

Lemma wf_init : wf init.
Proof.
  split; [apply table_wf_init|]. intros t tm id l. cbn. by rewrite lookup_empty.
Qed.

Lemma exec_wf o s : wf s → wf (exec o s).2.
Proof. intros [? ?]. split; [by apply exec_table_wf|by apply exec_owned]. Qed.

Lemma run_wf ops s : wf s → wf (run ops s).
Proof.
  revert s. induction ops as [|o ops IH]; intros s Hwf; [done|].
  cbn. by apply IH, exec_wf.
Qed.

Lemma quiet_cancel id s s' t0 :
  quiet id s → timers s' = timer_cancel t0 (timers s) → quiet id s'.
Proof.
  intros Hq Ht t tm. rewrite Ht, lookup_timer_cancel. case_decide; [|apply Hq].
  destruct (timers s !! t) as [tm0|] eqn:Htm; [|done]. cbn. intros [= <-].
  cbn. apply live_cancel. by eapply Hq.
Qed.

Lemma quiet_retime id s s' t e w :
  quiet id s → live id w = false →
  timers s' = <[t := mkTimer e w]> (timers s) → quiet id s'.
Proof.
  intros Hq Hw Ht t' tm. rewrite Ht, lookup_insert_Some.
  intros [[_ <-]|[_ Htm]]; [done|]. by eapply Hq.
Qed.

Lemma timeout_quiet tok id link ec s :
  quiet tok s → quiet tok (timeout id link ec s).2.
Proof.
  intros Hq. destruct (decide (ec = 0)) as [->|Hec].
  - destruct (handlers_ s !! id) as [r|] eqn:Hr.
    + rewrite (timeout_present _ _ _ _ Hr). by eapply quiet_cancel.
    + by rewrite (timeout_absent _ _ _ Hr).
  - by rewrite timeout_cancelled.
Qed.

(** Only a registration under the token itself can arm a timer for it. *)
Lemma exec_quiet tok o s :
  quiet tok s →
  quiet tok (exec o s).2 ∨ ∃ link h d, o = OpRegister link tok h d.
Proof.
  intros Hq.
  destruct o as [link m|link id h d|id link ec| | | |d|t|t]; cbn [exec];
    try by left.
  - left. destruct (handlers_ s !! msg_token m) as [r|] eqn:Hr.
    + destruct (decide (link = req_link r)) as [Hl|Hl].
      * rewrite (on_message_match _ _ _ _ Hr Hl). by eapply quiet_cancel.
      * rewrite (on_message_cross _ _ _ _ Hr Hl). by eapply quiet_cancel.
    + by rewrite (on_message_absent _ _ _ Hr).
  - destruct (decide (id = tok)) as [->|Hne]; [right; by eauto|left].
    rewrite register_tracked_eq.
    pose (s0 := set_timers
      <[next_timer s := mkTimer (clock s + d) (Waiting id link)]> s).
    assert (quiet tok s0) as Hq0.
    { eapply (quiet_retime tok s); [done| |done]. cbn. by apply bool_decide_false. }
    unfold registered. destruct (handlers_ s !! id) as [old|].
    + by eapply (quiet_cancel tok s0).
    + exact Hq0.
  - left. by apply timeout_quiet.
  - left. intros t tm Ht. destruct (shutdown_timers s) as [H1 _].
    destruct (H1 t) as [Heq|Heq]; rewrite Heq in Ht; [by eapply Hq|].
    destruct (timers s !! t) as [tm0|] eqn:Htm; [|done]. cbn in Ht.
    injection Ht as <-. cbn. apply live_cancel. by eapply Hq.
  - left. unfold expire, modify. cbn.
    destruct (timers s !! t) as [[e [|id l|id l ec]]|] eqn:Ht; try done.
    case_decide; [|done]. eapply (quiet_retime tok s); [done| |done].
    pose proof (Hq _ _ Ht) as Hl. cbn in Hl. cbn.
    apply bool_decide_eq_false in Hl. apply bool_decide_false. by intros [? _].
  - left. rewrite dispatch_eq.
    destruct (timers s !! t) as [[e [|id l|id l ec]]|] eqn:Ht; try done.
    apply timeout_quiet. eapply (quiet_retime tok s _ t e Idle); [done|done|done].
Qed.

(** The timeout marker reaches a callback only from [timeout] run with
    [success] for the token under which the record is stored. *)
Lemma timeout_marker id link ec s r l :
  EvCall r l None ∈ trace (timeout id link ec s).2 →
  EvCall r l None ∈ trace s ∨ (handlers_ s !! id = Some r ∧ l = link ∧ ec = 0).
Proof.
  destruct (decide (ec = 0)) as [->|Hec].
  - destruct (handlers_ s !! id) as [r0|] eqn:Hr.
    + rewrite (timeout_present _ _ _ _ Hr). cbn.
      rewrite elem_of_app, list_elem_of_singleton. intros [?|[= -> ->]]; eauto.
    + rewrite (timeout_absent _ _ _ Hr). by left.
  - rewrite timeout_cancelled by done. by left.
Qed.

Lemma exec_marker o s r l :
  EvCall r l None ∈ trace (exec o s).2 →
  EvCall r l None ∈ trace s ∨
  ∃ id, handlers_ s !! id = Some r ∧
    (o = OpTimeout id l 0 ∨
     ∃ t e, o = OpDispatch t ∧ timers s !! t = Some (mkTimer e (Queued id l 0))).
Proof.
  destruct o as [link m|link id h d|id link ec| | | |d|t|t]; cbn [exec];
    try by left.
  - destruct (handlers_ s !! msg_token m) as [r0|] eqn:Hr.
    + destruct (decide (link = req_link r0)) as [Hl|Hl].
      * rewrite (on_message_match _ _ _ _ Hr Hl). cbn.
        rewrite !elem_of_app, !list_elem_of_singleton. intros [[?|?]|?]; by eauto.
      * rewrite (on_message_cross _ _ _ _ Hr Hl). cbn.
        rewrite !elem_of_app, !list_elem_of_singleton. intros [[?|?]|?]; by eauto.
    + rewrite (on_message_absent _ _ _ Hr). cbn.
      rewrite !elem_of_app, !list_elem_of_singleton. intros [[?|?]|?]; by eauto.
  - rewrite register_tracked_eq. cbn.
    rewrite !elem_of_app, !list_elem_of_singleton. intros [?|?]; by eauto.
  - intros H. destruct (timeout_marker _ _ _ _ _ _ H) as [?|(? & -> & ->)]; eauto.
  - unfold expire, modify. cbn.
    destruct (timers s !! t) as [[e [|id l0|id l0 ec]]|]; try by left.
    case_decide; by left.
  - rewrite dispatch_eq.
    destruct (timers s !! t) as [[e [|id l0|id l0 ec]]|] eqn:Ht; try by left.
    intros H. destruct (timeout_marker _ _ _ _ _ _ H) as [?|(? & -> & ->)];
      [by left|right].
    exists id. split; [done|]. right. by eauto.
Qed.

Lemma exec_silenced r o s :
  driven o = true → table_wf s → silenced r s → silenced r (exec o s).2.
Proof.
  intros Hdr Hwf [Hsil [[Hp Hq]|[Habs Hlt]]].
  - split.
    + intros l Hin. destruct (exec_marker _ _ _ _ Hin) as [?|(id & Hr & Ho)];
        [by eapply Hsil|].
      destruct Hwf as [Htab _]. destruct (Htab _ _ Hr) as (<- & _).
      destruct Ho as [->|(t & e & -> & Ht)]; [done|].
      pose proof (Hq _ _ Ht) as Hl. cbn in Hl.
      apply bool_decide_eq_false in Hl. by apply Hl.
    + destruct (effect_once r s _ (exec_effect o s) Hwf (or_introl Hp))
        as [Hp'|(? & ? & _)]; [|by right].
      left. split; [done|].
      destruct (exec_quiet (req_id r) o s Hq) as [?|(link & h & d & ->)]; [done|].
      exfalso. unfold pending in Hp'. cbn in Hp'.
      rewrite register_tracked_eq in Hp'. cbn in Hp'.
      rewrite lookup_insert_eq in Hp'. injection Hp' as Hp'.
      destruct Hwf as [Htab _]. destruct (Htab _ _ Hp) as (_ & Hlt & _).
      rewrite <- Hp' in Hlt. cbn in Hlt. lia.
  - destruct (effect_absent r s _ (exec_effect o s) Hwf Habs Hlt) as (? & ? & Hc).
    split; [|by right].
    intros l. rewrite elem_of_calls_to, Hc, <- elem_of_calls_to. apply Hsil.
Qed.

Lemma run_silenced r ops s :
  forallb driven ops = true → table_wf s → silenced r s → silenced r (run ops s).
Proof.
  revert s. induction ops as [|o ops IH]; intros s Hdr Hwf Hs; [done|].
  cbn in Hdr. apply andb_true_iff in Hdr as [Ho Hdr].
  cbn. apply IH; [done|by apply exec_table_wf|by apply exec_silenced].
Qed.

(** An operation that does not consume the token leaves its entry alone. *)
Lemma timeout_table id link ec s k :
  ¬ (id = k ∧ ec = 0) →
  handlers_ (timeout id link ec s).2 !! k = handlers_ s !! k.
Proof.
  intros Hn. destruct (decide (ec = 0)) as [->|Hec].
  - destruct (handlers_ s !! id) as [r|] eqn:Hr.
    + rewrite (timeout_present _ _ _ _ Hr). cbn.
      rewrite lookup_delete_ne; [done|]. intros ->. by apply Hn.
    + by rewrite (timeout_absent _ _ _ Hr).
  - by rewrite timeout_cancelled.
Qed.

Lemma exec_not_consumed id o s :
  consumes id o s = false → handlers_ (exec o s).2 !! id = handlers_ s !! id.
Proof.
  destruct o as [link m|link id' h d|id' link ec| | | |d|t|t]; cbn [exec consumes];
    try done.
  - intros Hne%bool_decide_eq_false.
    destruct (handlers_ s !! msg_token m) as [r|] eqn:Hr.
    + destruct (decide (link = req_link r)) as [Hl|Hl].
      * rewrite (on_message_match _ _ _ _ Hr Hl). cbn. by rewrite lookup_delete_ne.
      * rewrite (on_message_cross _ _ _ _ Hr Hl). cbn. by rewrite lookup_delete_ne.
    + by rewrite (on_message_absent _ _ _ Hr).
  - intros Hne%bool_decide_eq_false. rewrite register_tracked_eq. cbn.
    by rewrite lookup_insert_ne.
  - intros Hne%bool_decide_eq_false. by apply timeout_table.
  - intros _. unfold expire, modify. cbn.
    destruct (timers s !! t) as [[e [|i l|i l ec]]|]; try done. by case_decide.
  - rewrite dispatch_eq.
    destruct (timers s !! t) as [[e [|i l|i l ec]]|]; try done.
    intros Hne%bool_decide_eq_false. by rewrite timeout_table.
Qed.

(** ** The claims *)

Lemma registered_pending s link id h d :
  table_wf s →
  table_wf (registered link id h d s) ∧
  pending (new_request link id h s) (registered link id h d s).
Proof.
  intros Hwf. split.
  - pose proof (exec_table_wf (OpRegister link id h d) s Hwf) as H.
    cbn [exec] in H. by rewrite register_tracked_eq in H.
  - unfold pending. cbn. apply lookup_insert_eq.
Qed.



(** C2. When [on_message] finds a record for the token of the message, the
    record is erased before anything else is done with it; on a link other
    than the one the request was sent on only a warning is logged, no
    callback runs and the record stays removed; on the link of the request
    the callback runs once, with that link and the message. *)
Theorem C2_on_message_cross_link s link message r :
  handlers_ s !! msg_token message = Some r →
  let s0 := erased (msg_token message) (emit (EvLog TRACE "on_message") s) in
  handlers_ s0 !! msg_token message = None ∧
  on_message link message s =
    (if decide (link ≠ req_link r)
     then log WARN "[spark] Tracked message receipient != sender";; destroy r
     else invoke r link (Some message);; destroy r) s0 ∧
  ∃ s', on_message link message s = (Ok tt, s') ∧
    handlers_ s' = delete (msg_token message) (handlers_ s) ∧
    (link ≠ req_link r →
       trace s' = trace s ++ [EvLog TRACE "on_message";
         EvLog WARN "[spark] Tracked message receipient != sender"] ∧
       calls (trace s') = calls (trace s)) ∧
    (link = req_link r →
       trace s' = trace s ++ [EvLog TRACE "on_message"; EvCall r link (Some message)] ∧
       calls (trace s') = calls (trace s) ++ [EvCall r link (Some message)]).
Proof.
  intros Hr s0. split; [cbn; apply lookup_delete_eq|].
  split; [by apply on_message_present|].
  destruct (decide (link = req_link r)) as [Hl|Hl].
  - eexists. split; [by apply on_message_match|]. split; [done|]. split; [done|].
    intros _. cbn. split; [by rewrite <- app_assoc|].
    by rewrite calls_emit_call, calls_emit_log.
  - eexists. split; [by apply on_message_cross|]. split; [done|]. split; [|done].
    intros _. cbn. split; [by rewrite <- app_assoc|].
    by rewrite !calls_emit_log.
Qed.

Lemma C2_on_message_cross_link_witness :
  ∃ s', on_message link_b response tracked = (Ok tt, s') ∧
        handlers_ s' = delete token (handlers_ tracked) ∧
        calls (trace s') = calls (trace tracked).
Proof.
  destruct (C2_on_message_cross_link tracked link_b response request eq_refl)
    as (_ & _ & s' & Heq & Hh & Hx & _).
  exists s'. split; [exact Heq|]. split; [exact Hh|].
  apply Hx. vm_compute. discriminate.
Defined.

(** C5. A message whose token has no record is logged and ignored:
    [on_message] returns, no callback runs, and the table and the timers
    are as before. *)
Theorem C5_on_message_unknown_token s link message :
  handlers_ s !! msg_token message = None →
  ∃ s', on_message link message s = (Ok tt, s') ∧
    handlers_ s' = handlers_ s ∧ timers s' = timers s ∧
    trace s' = trace s ++ [EvLog TRACE "on_message";
      EvLog DEBUG "[spark] Received invalid or expired tracked message"] ∧
    calls (trace s') = calls (trace s).
Proof.
  intros Hr. eexists. split; [by apply on_message_absent|].
  cbn. split_and!; [done|done|by rewrite <- app_assoc|].
  by rewrite !calls_emit_log.
Qed.

Lemma C5_on_message_unknown_token_witness :
  ∃ s', on_message link_a response init = (Ok tt, s') ∧
    handlers_ s' = handlers_ init ∧ calls (trace s') = calls (trace init).
Proof.
  destruct (C5_on_message_unknown_token init link_a response eq_refl)
    as (s' & Heq & Hh & _ & _ & Hc).
  exists s'. split; [exact Heq|]. split; [exact Hh|exact Hc].
Defined.

Lemma removed_absent s s' id r :
  table_wf s → handlers_ s !! id = Some r →
  handlers_ s' = delete id (handlers_ s) → absent r s'.
Proof.
  intros [Htab _] Hr Hh k. rewrite Hh, lookup_delete_Some. intros [Hk Hr'].
  destruct (Htab _ _ Hr) as (? & _). destruct (Htab _ _ Hr') as (? & _). congruence.
Qed.

(** The cases of [timeout] that return.  Run with an error code (the wait
    was cancelled) it changes nothing, and so does the completion of a
    cancelled timer; with no record under the token it leaves the table,
    the timers and the trace as they are; run with success while a record
    is stored under the token it removes the record and runs the callback
    once with the timeout marker; and once a response has been delivered to
    the callback of a request, that delivery stays its only invocation in
    every later schedule. *)
Lemma timeout_firing_cases s id link :
  (∀ ec, ec ≠ 0 → timeout id link ec s = (Ok tt, s)) ∧
  (∀ ec, handlers_ s !! id = None → (timeout id link ec s).2 = s) ∧
  (∀ t e ec, timers s !! t = Some (mkTimer e (Queued id link ec)) → ec ≠ 0 →
     ∃ s', dispatch t s = (Ok tt, s') ∧ handlers_ s' = handlers_ s ∧
           trace s' = trace s) ∧
  (∀ r, handlers_ s !! id = Some r →
     ∃ s', timeout id link success s = (Ok tt, s') ∧
           handlers_ s' = delete id (handlers_ s) ∧
           trace s' = trace s ++ [EvCall r link None]) ∧
  (∀ r message ops,
     table_wf s → handlers_ s !! id = Some r → msg_token message = id →
     calls_to r (trace (run ops (on_message (req_link r) message s).2)) =
       [EvCall r (req_link r) (Some message)]).
Proof.
  split_and!.
  - intros ec Hec. by apply timeout_cancelled.
  - intros ec Hn. destruct (decide (ec = 0)) as [->|Hec].
    + by rewrite timeout_absent.
    + by rewrite timeout_cancelled.
  - intros t e ec Ht Hec. rewrite dispatch_eq, Ht, timeout_cancelled by done.
    by eexists.
  - intros r Hr. eexists. split; [by apply timeout_present|done].
  - intros r message ops Hwf Hr <-.
    pose proof (exec_table_wf (OpOnMessage (req_link r) message) s Hwf) as Hwf'.
    cbn [exec] in Hwf'.
    rewrite (on_message_match _ _ _ _ Hr eq_refl) in *. cbn [snd] in *.
    destruct Hwf as [Htab Hfresh]. destruct (Htab _ _ Hr) as (_ & Hlt & Hc).
    edestruct (run_absent r ops) as [_ ->]; [exact Hwf'| |exact Hlt|].
    + by eapply (removed_absent s); [split| |].
    + cbn -[calls_to]. rewrite !calls_to_app, Hc. apply calls_to_self.
Qed.

Lemma timeout_firing_cases_example :
  timeout token link_a operation_aborted tracked = (Ok tt, tracked) ∧
  (∃ s', timeout token link_a success tracked = (Ok tt, s') ∧
         handlers_ s' = delete token (handlers_ tracked) ∧
         trace s' = trace tracked ++ [EvCall request link_a None]) ∧
  calls_to request
    (trace (run [OpAdvance 50%N; OpExpire 0%N; OpDispatch 0%N]
                (on_message link_a response tracked).2)) =
    [EvCall request link_a (Some response)].
Proof.
  destruct (timeout_firing_cases tracked token link_a) as (H1 & _ & _ & H3 & H4).
  split; [apply H1; discriminate|].
  split; [apply (H3 request); reflexivity|].
  apply (H4 request response);
    [apply (run_table_wf [OpRegister link_a token callback 50] init table_wf_init)
    |reflexivity|reflexivity].
Defined.

(** C9. Registering under a token that already has a record succeeds and
    stores the new request in its place; the request that was replaced has
    its timer cancelled and its callback is never run afterwards, whatever
    is scheduled. *)
Theorem C9_duplicate_registration_replaces s link id h d old ops :
  table_wf s → handlers_ s !! id = Some old →
  let s1 := (register_tracked link id h d s).2 in
  (register_tracked link id h d s).1 = Ok tt ∧
  handlers_ s1 !! id = Some (new_request link id h s) ∧
  new_request link id h s ≠ old ∧
  timers s1 !! req_timer old = cancel_timer <$> timers s !! req_timer old ∧
  calls_of old (trace (run ops s1)) = 0%nat.
Proof.
  intros Hwf Hold s1. unfold s1. rewrite register_tracked_eq. cbn [fst snd].
  destruct (registered_pending s link id h d Hwf) as [Hwf1 Hp].
  destruct Hwf as [Htab Hfresh]. destruct (Htab _ _ Hold) as (Hid & Hlt & Hc).
  assert (new_request link id h s ≠ old) as Hne.
  { intros <-. cbn in Hlt. lia. }
  split_and!; [done|cbn; apply lookup_insert_eq|done| |].
  - unfold registered. cbn. rewrite Hold, lookup_timer_cancel, decide_True by done.
    rewrite lookup_insert_ne; [done|lia].
  - rewrite calls_of_length.
    edestruct (run_absent old ops) as [_ ->]; [exact Hwf1| | |].
    + intros k. cbn. rewrite lookup_insert_Some. intros [[_ ?]|[Hk Hr]]; [done|].
      destruct (Htab _ _ Hr) as (? & _). congruence.
    + cbn. lia.
    + cbn -[calls_to]. by rewrite calls_to_app, Hc.
Qed.

Lemma C9_duplicate_registration_replaces_witness :
  handlers_ (register_tracked link_b token 101%N 20 tracked).2 !! token =
    Some (new_request link_b token 101%N tracked) ∧
  calls_of request
    (trace (run [OpOnMessage link_a response; OpDispatch 0%N; OpDispatch 1%N]
                (register_tracked link_b token 101%N 20 tracked).2)) = 0%nat.
Proof.
  destruct (C9_duplicate_registration_replaces tracked link_b token 101%N 20 request
    [OpOnMessage link_a response; OpDispatch 0%N; OpDispatch 1%N]
    (run_table_wf [OpRegister link_a token callback 50] init table_wf_init)
    eq_refl) as (_ & H2 & _ & _ & H5).
  split; [exact H2|exact H5].
Defined.

(** C6 (amended). After [register_tracked] the table holds, under the
    token, a record with the given link and handler, and the timer of the
    record waits with an expiry of [timeout] from the current time, bound
    to [timeout(token, link)].  The record leaves the table at most once:
    once gone it never returns.  Only these take it out: a message that
    carries its token, [timeout] run with success for its token (directly
    or as the completion of an expired timer), or a registration under the
    same token; [shutdown] is not among them. *)
Theorem C6_register_tracked_post s link id h d :
  table_wf s →
  let r := new_request link id h s in
  let s1 := (register_tracked link id h d s).2 in
  (register_tracked link id h d s).1 = Ok tt ∧
  handlers_ s1 !! id = Some r ∧ req_link r = link ∧ req_handler r = h ∧
  timers s1 !! req_timer r = Some (mkTimer (clock s + d) (Waiting id link)) ∧
  (∀ ops, pending r (run ops s1) ∨ absent r (run ops s1)) ∧
  (∀ ops ops', absent r (run ops s1) → absent r (run (ops ++ ops') s1)) ∧
  (∀ ops o, pending r (run ops s1) → ¬ pending r (run (ops ++ [o]) s1) →
     consumes id o (run ops s1) = true) ∧
  (∀ ops, pending r (run ops s1) → pending r (run (ops ++ [OpShutdown]) s1)).
Proof.
  intros Hwf r s1. unfold s1. rewrite register_tracked_eq. cbn [fst snd].
  destruct (registered_pending s link id h d Hwf) as [Hwf1 Hp]. fold r in Hp.
  assert (∀ ops o, consumes id o (run ops (registered link id h d s)) = false →
            pending r (run ops (registered link id h d s)) →
            pending r (run (ops ++ [o]) (registered link id h d s))) as Hkeep.
  { intros ops o Hc Hp'. rewrite run_app. cbn. unfold pending in *.
    change (req_id r) with id in *. by rewrite exec_not_consumed. }
  split_and!; [done|exact Hp|done|done| | | | |].
  - unfold registered. cbn. destruct Hwf as [Htab _].
    destruct (handlers_ s !! id) as [old|] eqn:Hold; [|apply lookup_insert_eq].
    destruct (Htab _ _ Hold) as (_ & Hlt & _).
    rewrite lookup_timer_cancel, decide_False by lia. apply lookup_insert_eq.
  - intros ops. destruct (run_once r ops _ Hwf1 (or_introl Hp)) as [?|(? & _)]; eauto.
  - intros ops ops' Habs. rewrite run_app.
    destruct (run_once r ops _ Hwf1 (or_introl Hp)) as [Hp'|(_ & Hlt & _)].
    + by destruct (Habs _ Hp').
    + by apply run_absent; [apply run_table_wf| |].
  - intros ops o Hp' Hnp.
    destruct (consumes id o (run ops (registered link id h d s))) eqn:Hc; [done|].
    destruct Hnp. by apply Hkeep.
  - intros ops Hp'. by apply Hkeep.
Qed.

Lemma C6_register_tracked_post_witness :
  handlers_ tracked !! token = Some request ∧
  timers tracked !! req_timer request = Some (mkTimer 50 (Waiting token link_a)) ∧
  pending request (run ([OpAdvance 10%N] ++ [OpShutdown]) tracked).
Proof.
  destruct (C6_register_tracked_post init link_a token callback 50 table_wf_init)
    as (_ & H2 & _ & _ & H5 & _ & _ & _ & H9).
  split; [exact H2|]. split; [exact H5|].
  apply (H9 [OpAdvance 10%N]). reflexivity.
Defined.

(** C6 (as stated, refuted). [shutdown] does not consume the record: after
    [shutdown] and the completion of the cancelled timer the record is still
    in the table, and a response that arrives later still runs the callback. *)
Lemma C6_shutdown_does_not_consume :
  pending request (run [OpShutdown; OpDispatch 0%N] tracked) ∧
  calls (trace (run [OpShutdown; OpDispatch 0%N] tracked)) = [] ∧
  calls (trace (run [OpShutdown; OpDispatch 0%N; OpOnMessage link_a response] tracked)) =
    [EvCall request link_a (Some response)].
Proof. split_and!; vm_compute; reflexivity. Qed.

(** C7 (amended). [shutdown] returns, runs no callback, leaves the table
    as it is and cancels the timer of every record in it.  For a record
    that is pending at that moment, provided no timer armed for its token
    has already expired, no later schedule driven by the [io_service]
    delivers the timeout marker to its callback.  A request that has
    already left the table has no further invocation of its callback. *)
Theorem C7_shutdown_cancels s r ops :
  wf s → pending r s →
  (∀ t tm l, timers s !! t = Some tm → wait tm ≠ Queued (req_id r) l success) →
  forallb driven ops = true →
  let s' := (shutdown s).2 in
  (shutdown s).1 = Ok tt ∧ handlers_ s' = handlers_ s ∧ trace s' = trace s ∧
  (∀ k r', handlers_ s !! k = Some r' →
     timers s' !! req_timer r' = cancel_timer <$> timers s !! req_timer r') ∧
  (∀ t tm id l, timers s' !! t = Some tm → wait tm ≠ Waiting id l) ∧
  (∀ l, EvCall r l None ∉ trace (run ops s')) ∧
  (∀ r0, absent r0 s → (req_timer r0 < next_timer s)%N →
     calls_to r0 (trace (run ops s')) = calls_to r0 (trace s)).
Proof.
  intros [Hwf Hown] Hp Hexp Hdr s'.
  assert (table_wf s') as Hwf' by apply (exec_table_wf OpShutdown s Hwf).
  split_and!; [done|done|done| | | |].
  - apply shutdown_timers.
  - intros t tm id l. by apply shutdown_no_waiting.
  - apply (run_silenced r ops s' Hdr Hwf'). split.
    + intros l. rewrite elem_of_calls_to. destruct Hwf as [Htab _].
      destruct (Htab _ _ Hp) as (_ & _ & Hc).
      change (trace s') with (trace s). rewrite Hc. apply not_elem_of_nil.
    + left. split; [exact Hp|]. by apply shutdown_quiet.
  - intros r0 Habs Hlt. by apply (run_absent r0 ops s' Hwf').
Qed.

Lemma C7_shutdown_cancels_witness :
  timers (shutdown tracked).2 !! 0%N =
    Some (mkTimer 50 (Queued token link_a operation_aborted)) ∧
  ∀ l, EvCall request l None ∉
    trace (run [OpAdvance 50%N; OpExpire 0%N; OpDispatch 0%N] (shutdown tracked).2).
Proof.
  assert (wf tracked) as Hwf
    by exact (run_wf [OpRegister link_a token callback 50] init wf_init).
  assert (∀ t tm l, timers tracked !! t = Some tm →
            wait tm ≠ Queued (req_id request) l success) as Hexp.
  { intros t tm l.
    replace (timers tracked)
      with ({[0%N := mkTimer 50 (Waiting token link_a)]} : gmap timer_id Timer)
      by (vm_compute; reflexivity).
    intros Ht. apply lookup_singleton_Some in Ht as [_ <-]. discriminate. }
  destruct (C7_shutdown_cancels tracked request
    [OpAdvance 50%N; OpExpire 0%N; OpDispatch 0%N] Hwf eq_refl Hexp eq_refl)
    as (_ & _ & _ & H4 & _ & H6 & _).
  split; [|exact H6]. exact (H4 token request eq_refl).
Defined.

(** C7 (as stated, refuted). The timer of a pending record has expired and
    its completion is queued when [shutdown] runs; the cancellation comes
    too late and the completion still runs the callback with the timeout
    marker. *)
Lemma C7_expired_timer_fires_after_shutdown :
  pending request (run [OpAdvance 50%N; OpExpire 0%N] tracked) ∧
  calls (trace (run [OpAdvance 50%N; OpExpire 0%N] tracked)) = [] ∧
  calls (trace (run [OpAdvance 50%N; OpExpire 0%N; OpShutdown; OpDispatch 0%N] tracked)) =
    [EvCall request link_a None].
Proof. split_and!; vm_compute; reflexivity. Qed.

(** C3 (the code departs from the claim). The timer of a request expires,
    the response is delivered before the queued completion runs, and the
    completion then calls [timeout] for a token that has no record:
    [handlers_.at] throws and nothing catches it.  The other methods
    return in every state. *)
Theorem C3_timeout_throws_without_record :
  (exec (OpDispatch 0%N)
        (run [OpAdvance 50%N; OpExpire 0%N; OpOnMessage link_a response] tracked)).1 =
    Throw out_of_range ∧
  (timeout token link_a success init).1 = Throw out_of_range ∧
  ∀ s link message id h d,
    (on_message link message s).1 = Ok tt ∧
    (register_tracked link id h d s).1 = Ok tt ∧
    (shutdown s).1 = Ok tt ∧
    (on_link_up link s).1 = Ok tt ∧ (on_link_down link s).1 = Ok tt.
Proof.
  split; [vm_compute; reflexivity|]. split; [vm_compute; reflexivity|].
  intros s link message id h d. split_and!; try done.
  - destruct (handlers_ s !! msg_token message) as [r|] eqn:Hr.
    + destruct (decide (link = req_link r)) as [Hl|Hl].
      * by rewrite (on_message_match _ _ _ _ Hr Hl).
      * by rewrite (on_message_cross _ _ _ _ Hr Hl).
    + by rewrite (on_message_absent _ _ _ Hr).
  - by rewrite register_tracked_eq.
Qed.






(** C4 (the code departs from the claim). The timer of a request has
    expired, so its completion is queued with [success], and the response
    is delivered before the completion runs.  The completion then calls
    [timeout] for a token that has no record: the call is neither a no-op
    that returns nor the removal of a record with a callback, it leaves by
    [std::out_of_range].  No second callback has run. *)
Theorem C4_timeout_after_response_throws :
  let s := run [OpAdvance 50%N; OpExpire 0%N; OpOnMessage link_a response] tracked in
  calls (trace s) = [EvCall request link_a (Some response)] ∧
  timers s !! 0%N = Some (mkTimer 50 (Queued token link_a success)) ∧
  handlers_ s !! token = None ∧
  dispatch 0%N s = (Throw out_of_range, set_timers <[0%N := mkTimer 50 Idle]> s) ∧
  timeout token link_a success s = (Throw out_of_range, s).
Proof. cbv zeta. split_and!; vm_compute; reflexivity. Qed.

(** What can happen to a pending record: in every later schedule it is in
    the table or gone for good, it leaves only through an operation that
    consumes its token, and [shutdown] is not one of them. *)
Lemma pending_resolution r s :
  table_wf s → pending r s →
  (∀ ops, pending r (run ops s) ∨ absent r (run ops s)) ∧
  (∀ ops ops', absent r (run ops s) → absent r (run (ops ++ ops') s)) ∧
  (∀ ops o, pending r (run ops s) → ¬ pending r (run (ops ++ [o]) s) →
     consumes (req_id r) o (run ops s) = true) ∧
  (∀ ops, pending r (run ops s) → pending r (run (ops ++ [OpShutdown]) s)).
Proof.
  intros Hwf Hp.
  assert (∀ ops o, consumes (req_id r) o (run ops s) = false →
            pending r (run ops s) → pending r (run (ops ++ [o]) s)) as Hkeep.
  { intros ops o Hc Hp'. rewrite run_app. cbn. unfold pending in *.
    by rewrite exec_not_consumed. }
  split_and!.
  - intros ops. destruct (run_once r ops _ Hwf (or_introl Hp)) as [?|(? & _)]; eauto.
  - intros ops ops' Habs. rewrite run_app.
    destruct (run_once r ops _ Hwf (or_introl Hp)) as [Hp'|(_ & Hlt & _)].
    + by destruct (Habs _ Hp').
    + by apply run_absent; [apply run_table_wf| |].
  - intros ops o Hp' Hnp.
    destruct (consumes (req_id r) o (run ops s)) eqn:Hc; [done|].
    destruct Hnp. by apply Hkeep.
  - intros ops Hp'. by apply Hkeep.
Qed.

(** C8 (amended). [on_link_up] and [on_link_down] return without touching
    the table, the timers or the trace, for every link.  A request whose
    link has gone down stays pending; it leaves the table at most once and
    only through a later message that carries its token (on any link),
    through [timeout] run with success for its token, or through a
    registration under the same token; [shutdown] leaves it in the table. *)
Theorem C8_link_events_frame_and_resolution s link :
  on_link_up link s = (Ok tt, s) ∧ on_link_down link s = (Ok tt, s) ∧
  ∀ r, table_wf s → pending r s →
    let s' := (on_link_down (req_link r) s).2 in
    pending r s' ∧ handlers_ s' = handlers_ s ∧ timers s' = timers s ∧
    (∀ ops, pending r (run ops s') ∨ absent r (run ops s')) ∧
    (∀ ops ops', absent r (run ops s') → absent r (run (ops ++ ops') s')) ∧
    (∀ ops o, pending r (run ops s') → ¬ pending r (run (ops ++ [o]) s') →
       consumes (req_id r) o (run ops s') = true) ∧
    (∀ ops, pending r (run ops s') → pending r (run (ops ++ [OpShutdown]) s')).
Proof.
  split; [done|]. split; [done|]. intros r Hwf Hp s'.
  destruct (pending_resolution r s Hwf Hp) as (H1 & H2 & H3 & H4).
  by split_and!.
Qed.

Lemma C8_link_events_frame_and_resolution_witness :
  on_link_down link_a tracked = (Ok tt, tracked) ∧
  pending request (on_link_down link_a tracked).2 ∧
  pending request (run ([OpLinkUp link_a] ++ [OpShutdown]) (on_link_down link_a tracked).2).
Proof.
  destruct (C8_link_events_frame_and_resolution tracked link_a) as (_ & Hdown & Hr).
  destruct (Hr request
    (run_table_wf [OpRegister link_a token callback 50] init table_wf_init) eq_refl)
    as (Hp & _ & _ & _ & _ & _ & Hsh).
  split; [exact Hdown|]. split; [exact Hp|].
  apply (Hsh [OpLinkUp link_a]). reflexivity.
Defined.

(** C8 (as stated, refuted). The link of a pending request goes down.  A
    message with its token on another link then takes the record out of the
    table with no callback: it is resolved by neither a matching response,
    its timeout nor [shutdown].  And [shutdown] does not resolve it: after
    [shutdown] and the completion of the cancelled timer the record is
    still in the table. *)
Lemma C8_closed_link_request_dropped :
  handlers_ (run [OpLinkDown link_a; OpOnMessage link_b response] tracked) = ∅ ∧
  calls (trace (run [OpLinkDown link_a; OpOnMessage link_b response] tracked)) = [] ∧
  pending request (run [OpLinkDown link_a; OpShutdown; OpDispatch 0%N] tracked).
Proof. split_and!; vm_compute; reflexivity. Qed.

End TrackingSpec.

(** * Properties of the realm service *)

Module RealmSpec.

Import Spark Login.

Lemma handle_realm_status_null_ip {RealmList} add_realm link root (s : State RealmList) :
  rs_ip (data root) = None →
  (handle_realm_status RealmList add_realm link root s).1 = Throw null_dereference.
Proof.
  intros H. unfold handle_realm_status, mbind, M_bind, bind, log, modify.
  cbn. rewrite H. by case_decide.
Qed.

Theorem C10_handle_realm_status_unchecked :
  handle_realm_status realm_log cons gateway
    (mkMessageRoot Data_RealmStatus status_without_name) start =
    (Throw null_dereference,
     mkState realm_log [] ∅ [(TRACE, "handle_realm_status"); (DEBUG, "Failed")]) ∧
  handle_realm_status realm_log cons gateway
    (mkMessageRoot Data_RealmStatus status_without_ip) start =
    (Throw null_dereference,
     mkState realm_log [] ∅ [(TRACE, "handle_realm_status"); (DEBUG, "Failed")]) ∧
  handle_realm_status realm_log cons gateway
    (mkMessageRoot Data_RealmStatus status_without_id) start =
    (Ok tt,
     mkState realm_log [mkRealm 0 "10.0.0.1" "Ember" 0%N 0 0 0]
             {[link_uuid gateway := 0]}
             [(TRACE, "handle_realm_status"); (DEBUG, "Failed")]).
Proof. split_and!; vm_compute; reflexivity. Qed.

End RealmSpec.

(** * Further properties of the tracking service *)

Module TrackingMore.

Import Spark SparkMore TrackingSpec.

(** X1. In every state reached from the empty service, a record that is
    in the table is stored under its own token, owns a timer that has been
    allocated, and its callback has never run. *)
Theorem reachable_records_unanswered ops k r :
  handlers_ (run ops init) !! k = Some r →
  req_id r = k ∧ (req_timer r < next_timer (run ops init))%N ∧
  calls_of r (trace (run ops init)) = 0%nat.
Proof.
  intros Hr. destruct (run_table_wf ops init table_wf_init) as [Htab _].
  destruct (Htab _ _ Hr) as (? & ? & Hc). rewrite calls_of_length, Hc. done.
Qed.

Lemma reachable_records_unanswered_witness :
  req_id request = token ∧ (req_timer request < next_timer tracked)%N ∧
  calls_of request (trace tracked) = 0%nat.
Proof.
  exact (reachable_records_unanswered [OpRegister link_a token callback 50]
           token request eq_refl).
Defined.

(** X2. In every reachable state a timer that is still waiting belongs to
    the record stored under the token it is bound to: completing or
    replacing a request never leaves its timer waiting. *)
Theorem reachable_waits_owned ops t tm id l :
  timers (run ops init) !! t = Some tm → wait tm = Waiting id l →
  ∃ r, handlers_ (run ops init) !! id = Some r ∧ req_timer r = t.
Proof. intros Ht Hw. destruct (run_wf ops init wf_init) as [_ Hown]. by eapply Hown. Qed.

Lemma reachable_waits_owned_witness :
  ∃ r, handlers_ tracked !! token = Some r ∧ req_timer r = 0%N.
Proof.
  exact (reachable_waits_owned [OpRegister link_a token callback 50] 0%N
           (mkTimer 50 (Waiting token link_a)) token link_a eq_refl eq_refl).
Defined.

Lemma set_timers_id f s : f (timers s) = timers s → set_timers f s = s.
Proof. intros H. destruct s. unfold set_timers. cbn in *. by rewrite H. Qed.

(** X3. On a reachable state a second [shutdown] changes nothing: after
    the first one no timer is left waiting. *)
Theorem shutdown_idempotent s :
  wf s → shutdown (shutdown s).2 = (Ok tt, (shutdown s).2).
Proof.
  intros [_ Hown]. set (s' := (shutdown s).2).
  assert (timers (shutdown s').2 = timers s') as Heq.
  { apply map_eq. intros t. destruct (shutdown_timers s') as [H1 _].
    destruct (H1 t) as [->| ->]; [done|].
    destruct (timers s' !! t) as [tm|] eqn:Ht; [|done]. cbn. f_equal.
    destruct tm as [e w]. unfold cancel_timer. cbn. f_equal.
    destruct w as [|id l|id l ec]; try done.
    by destruct (shutdown_no_waiting s t _ id l Hown Ht). }
  unfold shutdown, modify in *. cbn in Heq. f_equal. by apply set_timers_id.
Qed.

Lemma shutdown_idempotent_witness :
  shutdown (shutdown tracked).2 = (Ok tt, (shutdown tracked).2).
Proof.
  exact (shutdown_idempotent tracked
           (run_wf [OpRegister link_a token callback 50] init wf_init)).
Defined.

Lemma registered_timer s link id h d :
  table_wf s →
  timers (registered link id h d s) !! next_timer s =
    Some (mkTimer (clock s + d) (Waiting id link)).
Proof.
  intros [Htab _]. unfold registered. cbn.
  destruct (handlers_ s !! id) as [old|] eqn:Hold; [|apply lookup_insert_eq].
  destruct (Htab _ _ Hold) as (_ & Hlt & _).
  rewrite lookup_timer_cancel, decide_False by lia. apply lookup_insert_eq.
Qed.

(** X4. A request is registered, its deadline passes and its timer
    completes: the completion returns, the record is gone, the callback has
    run once with the timeout marker on the link of the request, and a
    response that arrives afterwards is ignored without a callback. *)
Theorem timeout_path s link id h d n :
  table_wf s → d ≤ Z.of_N n →
  let r := new_request link id h s in
  let s1 := (register_tracked link id h d s).2 in
  let s2 := run [OpAdvance n; OpExpire (req_timer r)] s1 in
  let s3 := (exec (OpDispatch (req_timer r)) s2).2 in
  (exec (OpDispatch (req_timer r)) s2).1 = Ok tt ∧
  handlers_ s3 = delete id (handlers_ s) ∧
  trace s3 = trace s ++ [EvLog TRACE "register_tracked"; EvCall r link None] ∧
  ∀ l m, msg_token m = id →
    (on_message l m s3).1 = Ok tt ∧
    calls (trace (on_message l m s3).2) = calls (trace s3).
Proof.
  intros Hwf Hd r s1 s2 s3.
  assert (timers s1 !! req_timer r = Some (mkTimer (clock s + d) (Waiting id link)))
    as Ht1.
  { unfold s1. rewrite register_tracked_eq. by apply registered_timer. }
  assert (handlers_ s1 = <[id := r]> (handlers_ s) ∧ clock s1 = clock s ∧
          trace s1 = trace s ++ [EvLog TRACE "register_tracked"]) as (Hh1 & Hc1 & Htr1).
  { unfold s1. by rewrite register_tracked_eq. }
  assert (s2 = set_timers
            <[req_timer r := mkTimer (clock s + d) (Queued id link success)]>
            (advance n s1).2) as Hs2.
  { unfold s2. cbn [run exec]. unfold expire at 1, modify. cbn [snd].
    change (timers (advance n s1).2) with (timers s1). rewrite Ht1.
    change (clock (advance n s1).2) with (clock s1 + Z.of_N n).
    rewrite decide_True by lia. done. }
  assert (exec (OpDispatch (req_timer r)) s2 =
          timeout id link success
            (set_timers <[req_timer r := mkTimer (clock s + d) Idle]> s2)) as Hd3.
  { cbn [exec]. rewrite dispatch_eq. rewrite Hs2 at 1. cbn [timers set_timers].
    by rewrite lookup_insert_eq. }
  assert (handlers_ s2 = <[id := r]> (handlers_ s) ∧
          trace s2 = trace s ++ [EvLog TRACE "register_tracked"]) as (Hh2 & Htr2).
  { rewrite Hs2. cbn. by rewrite Hh1, Htr1. }
  unfold s3. rewrite Hd3.
  clearbody s2 s1.
  erewrite timeout_present;
    [|cbn [handlers_ set_timers]; rewrite Hh2; apply lookup_insert_eq].
  cbn [fst snd]. split_and!; [done| | |].
  - cbn. by rewrite Hh2, delete_insert_eq.
  - cbn. by rewrite Htr2, <- app_assoc.
  - intros l m Hm. rewrite on_message_absent.
    + split; [done|]. cbn -[calls]. by rewrite !calls_emit_log.
    + cbn. rewrite Hm, Hh2, delete_insert_eq. apply lookup_delete_eq.
Qed.

Lemma timeout_path_witness :
  handlers_ (run [OpAdvance 50%N; OpExpire 0%N; OpDispatch 0%N] tracked) = ∅ ∧
  trace (run [OpAdvance 50%N; OpExpire 0%N; OpDispatch 0%N] tracked) =
    [EvLog TRACE "register_tracked"; EvCall request link_a None].
Proof.
  destruct (timeout_path init link_a token callback 50 50%N table_wf_init)
    as (_ & H2 & H3 & _); [reflexivity|].
  split; [exact H2|exact H3].
Defined.

(** X5. A request is registered and its response arrives on the same
    link while the timer is still waiting: the callback runs once with the
    response, the record is gone, the timer completes with
    [operation_aborted], and that completion returns and only resets the
    timer. *)
Theorem response_path s link id h d m :
  table_wf s → msg_token m = id →
  let r := new_request link id h s in
  let s1 := (register_tracked link id h d s).2 in
  let s2 := (on_message link m s1).2 in
  (on_message link m s1).1 = Ok tt ∧
  handlers_ s2 = delete id (handlers_ s) ∧
  calls (trace s2) = calls (trace s) ++ [EvCall r link (Some m)] ∧
  timers s2 !! req_timer r =
    Some (mkTimer (clock s + d) (Queued id link operation_aborted)) ∧
  dispatch (req_timer r) s2 =
    (Ok tt, set_timers <[req_timer r := mkTimer (clock s + d) Idle]> s2).
Proof.
  intros Hwf Hm r s1 s2.
  assert (timers s1 !! req_timer r = Some (mkTimer (clock s + d) (Waiting id link)))
    as Ht1.
  { unfold s1. rewrite register_tracked_eq. by apply registered_timer. }
  assert (handlers_ s1 = <[id := r]> (handlers_ s) ∧
          trace s1 = trace s ++ [EvLog TRACE "register_tracked"]) as (Hh1 & Htr1).
  { unfold s1. by rewrite register_tracked_eq. }
  assert (on_message link m s1 =
    (Ok tt, set_timers (timer_cancel (req_timer r))
              (emit (EvCall r link (Some m))
                 (erased (msg_token m) (emit (EvLog TRACE "on_message") s1)))))
    as Hom.
  { apply on_message_match; [|done]. rewrite Hm, Hh1. apply lookup_insert_eq. }
  assert (timers s2 !! req_timer r =
          Some (mkTimer (clock s + d) (Queued id link operation_aborted))) as Ht2.
  { unfold s2. rewrite Hom. cbn [snd timers set_timers emit erased set_handlers].
    rewrite lookup_timer_cancel, decide_True by done. by rewrite Ht1. }
  split_and!.
  - by rewrite Hom.
  - unfold s2. rewrite Hom. cbn. by rewrite Hm, Hh1, delete_insert_eq.
  - unfold s2. rewrite Hom. cbn -[calls].
    by rewrite calls_emit_call, calls_emit_log, Htr1, calls_emit_log.
  - exact Ht2.
  - rewrite dispatch_eq, Ht2. by apply timeout_cancelled.
Qed.

Lemma response_path_witness :
  calls (trace (on_message link_a response tracked).2) =
    [EvCall request link_a (Some response)] ∧
  dispatch 0%N (on_message link_a response tracked).2 =
    (Ok tt, set_timers <[0%N := mkTimer 50 Idle]> (on_message link_a response tracked).2).
Proof.
  destruct (response_path init link_a token callback 50 response table_wf_init eq_refl)
    as (_ & _ & H3 & _ & H5).
  split; [exact H3|exact H5].
Defined.

Lemma cancel_live id tm :
  live id (wait (cancel_timer tm)) = true → cancel_timer tm = tm.
Proof.
  destruct tm as [e [|id' l|id' l ec]]; cbn; try done.
  intros H%bool_decide_eq_true. by destruct H.
Qed.

Lemma shrinks_same id s s' : timers s' = timers s → shrinks id s s'.
Proof. intros H t tm. by rewrite H. Qed.

Lemma shrinks_trans id s1 s2 s3 : shrinks id s1 s2 → shrinks id s2 s3 → shrinks id s1 s3.
Proof. intros H12 H23 t tm Ht Hl. apply H12; [|done]. by apply H23. Qed.

Lemma shrinks_cancel id s s' t0 :
  timers s' = timer_cancel t0 (timers s) → shrinks id s s'.
Proof.
  intros H t tm. rewrite H, lookup_timer_cancel. case_decide; [|done].
  destruct (timers s !! t) as [tm0|]; [|done]. cbn. intros [= <-] Hl.
  by rewrite (cancel_live _ _ Hl).
Qed.

Lemma shrinks_retime id s s' t e w :
  live id w = false → timers s' = <[t := mkTimer e w]> (timers s) → shrinks id s s'.
Proof.
  intros Hw H t' tm. rewrite H, lookup_insert_Some.
  intros [[_ <-]|[_ ?]] Hl; [|done]. cbn in Hl. congruence.
Qed.

Lemma timeout_shrinks tok id link ec s : shrinks tok s (timeout id link ec s).2.
Proof.
  destruct (decide (ec = 0)) as [->|Hec].
  - destruct (handlers_ s !! id) as [r|] eqn:Hr.
    + rewrite (timeout_present _ _ _ _ Hr). by eapply shrinks_cancel.
    + rewrite (timeout_absent _ _ _ Hr). by apply shrinks_same.
  - rewrite timeout_cancelled by done. by apply shrinks_same.
Qed.

(** A step arms or expires a timer of a token only by registering under
    that token or by letting a waiting timer of the token reach its expiry. *)
Lemma exec_shrinks tok o s :
  shrinks tok s (exec o s).2 ∨
  (∃ link h d, o = OpRegister link tok h d) ∨
  (∃ t e l, o = OpExpire t ∧ timers s !! t = Some (mkTimer e (Waiting tok l)) ∧
            e ≤ clock s).
Proof.
  destruct o as [link m|link id h d|id link ec| | | |d|t|t]; cbn [exec];
    try (left; by apply shrinks_same).
  - left. destruct (handlers_ s !! msg_token m) as [r|] eqn:Hr.
    + destruct (decide (link = req_link r)) as [Hl|Hl].
      * rewrite (on_message_match _ _ _ _ Hr Hl). by eapply shrinks_cancel.
      * rewrite (on_message_cross _ _ _ _ Hr Hl). by eapply shrinks_cancel.
    + rewrite (on_message_absent _ _ _ Hr). by apply shrinks_same.
  - destruct (decide (id = tok)) as [->|Hne]; [right; left; by eauto|left].
    rewrite register_tracked_eq.
    pose (s0 := set_timers
      <[next_timer s := mkTimer (clock s + d) (Waiting id link)]> s).
    assert (shrinks tok s s0) as H0.
    { eapply shrinks_retime; [|done]. cbn. by apply bool_decide_false. }
    unfold registered. destruct (handlers_ s !! id) as [old|]; [|exact H0].
    eapply shrinks_trans; [exact H0|]. by eapply (shrinks_cancel tok s0).
  - left. apply timeout_shrinks.
  - left. intros t tm Ht Hl. destruct (shutdown_timers s) as [H1 _].
    destruct (H1 t) as [Heq|Heq]; rewrite Heq in Ht; [done|].
    destruct (timers s !! t) as [tm0|]; [|done]. cbn in Ht.
    injection Ht as <-. by rewrite (cancel_live _ _ Hl).
  - unfold expire, modify. cbn.
    destruct (timers s !! t) as [[e [|id l|id l ec]]|] eqn:Ht;
      try (left; by apply shrinks_same).
    case_decide; [|left; by apply shrinks_same].
    destruct (decide (id = tok)) as [->|Hne].
    + right. right. by eauto 10.
    + left. eapply shrinks_retime; [|done]. cbn. apply bool_decide_false.
      by intros [? _].
  - left. rewrite dispatch_eq.
    destruct (timers s !! t) as [[e [|id l|id l ec]]|] eqn:Ht;
      try by apply shrinks_same.
    eapply shrinks_trans; [|apply timeout_shrinks].
    by eapply (shrinks_retime tok s _ t e Idle).
Qed.

Lemma timeout_clock id link ec s : clock (timeout id link ec s).2 = clock s.
Proof.
  destruct (decide (ec = 0)) as [->|Hec].
  - destruct (handlers_ s !! id) as [r|] eqn:Hr.
    + by rewrite (timeout_present _ _ _ _ Hr).
    + by rewrite (timeout_absent _ _ _ Hr).
  - by rewrite timeout_cancelled.
Qed.

(** The clock never runs backwards. *)
Lemma exec_clock o s : clock s ≤ clock (exec o s).2.
Proof.
  destruct o as [link m|link id h d|id link ec| | | |d|t|t]; cbn [exec]; try done.
  - destruct (handlers_ s !! msg_token m) as [r|] eqn:Hr.
    + destruct (decide (link = req_link r)) as [Hl|Hl].
      * by rewrite (on_message_match _ _ _ _ Hr Hl).
      * by rewrite (on_message_cross _ _ _ _ Hr Hl).
    + by rewrite (on_message_absent _ _ _ Hr).
  - by rewrite register_tracked_eq.
  - by rewrite timeout_clock.
  - cbn. lia.
  - unfold expire, modify. cbn.
    destruct (timers s !! t) as [[e [|id l|id l ec]]|]; try done. by case_decide.
  - rewrite dispatch_eq.
    destruct (timers s !! t) as [[e [|id l|id l ec]]|]; try done.
    by rewrite timeout_clock.
Qed.

Lemma run_clock ops s : clock s ≤ clock (run ops s).
Proof.
  revert s. induction ops as [|o ops IH]; intros s; [done|].
  cbn. etrans; [apply (exec_clock o s)|apply IH].
Qed.

Lemma exec_punctual r deadline link o s :
  driven o = true → table_wf s →
  punctual r deadline (mkTimer deadline (Waiting (req_id r) link)) s →
  punctual r deadline (mkTimer deadline (Waiting (req_id r) link)) (exec o s).2.
Proof.
  intros Hdr Hwf [Hdl|[Hsil [[Hp Hsole]|[Habs Hlt]]]].
  - left. pose proof (exec_clock o s). lia.
  - destruct (decide (deadline ≤ clock (exec o s).2)) as [?|Hearly]; [by left|].
    right. split.
    + intros l Hin. destruct (exec_marker _ _ _ _ Hin) as [?|(id & Hr & Ho)];
        [by eapply Hsil|].
      destruct Hwf as [Htab _]. destruct (Htab _ _ Hr) as (<- & _).
      destruct Ho as [->|(t & e & -> & Ht)]; [done|].
      destruct (Hsole _ _ Ht) as [_ [=]]. cbn. by apply bool_decide_true.
    + destruct (effect_once r s _ (exec_effect o s) Hwf (or_introl Hp))
        as [Hp'|(? & ? & _)]; [|by right].
      left. split; [done|].
      destruct (exec_shrinks (req_id r) o s)
        as [Hsh|[(link' & h & d & ->)|(t & e & l & -> & Ht & Hle)]].
      * intros t tm Ht Hl. apply Hsole; [|done]. by apply Hsh.
      * exfalso. unfold pending in Hp'. cbn in Hp'.
        rewrite register_tracked_eq in Hp'. cbn in Hp'.
        rewrite lookup_insert_eq in Hp'. injection Hp' as Hp'.
        destruct Hwf as [Htab _]. destruct (Htab _ _ Hp) as (_ & Hlt & _).
        rewrite <- Hp' in Hlt. cbn in Hlt. lia.
      * exfalso. destruct (Hsole _ _ Ht) as [_ [= -> _]].
        { cbn. by apply bool_decide_true. }
        pose proof (exec_clock (OpExpire t) s). lia.
  - destruct (effect_absent r s _ (exec_effect o s) Hwf Habs Hlt) as (? & ? & Hc).
    right. split; [|by right].
    intros l. rewrite elem_of_calls_to, Hc, <- elem_of_calls_to. apply Hsil.
Qed.

Lemma run_punctual r deadline link ops s :
  forallb driven ops = true → table_wf s →
  punctual r deadline (mkTimer deadline (Waiting (req_id r) link)) s →
  punctual r deadline (mkTimer deadline (Waiting (req_id r) link)) (run ops s).
Proof.
  revert s. induction ops as [|o ops IH]; intros s Hdr Hwf Hs; [done|].
  cbn in Hdr. apply andb_true_iff in Hdr as [Ho Hdr].
  cbn. apply IH; [done|by apply exec_table_wf|by apply exec_punctual].
Qed.

(** X6. No early timeout.  When a request is registered while no timer of
    its token has already expired, then in every schedule driven by the
    [io_service], if its callback has received the timeout marker the clock
    has reached the registration time plus the timeout. *)
Theorem no_premature_timeout s link id h d ops l :
  wf s →
  (∀ t tm l', timers s !! t = Some tm → wait tm ≠ Queued id l' success) →
  forallb driven ops = true →
  EvCall (new_request link id h s) l None ∈
    trace (run ops (register_tracked link id h d s).2) →
  clock s + d ≤ clock (run ops (register_tracked link id h d s).2).
Proof.
  intros [Hwf Hown] Hexp Hdr.
  set (r := new_request link id h s). set (s1 := (register_tracked link id h d s).2).
  intros Hin.
  destruct (registered_pending s link id h d Hwf) as [Hwf1 Hp]. fold r in Hp.
  assert (s1 = registered link id h d s) as Hs1
    by (unfold s1; by rewrite register_tracked_eq).
  assert (punctual r (clock s + d) (mkTimer (clock s + d) (Waiting (req_id r) link)) s1)
    as Hpun.
  { right. rewrite Hs1. split.
    - intros l'. rewrite elem_of_calls_to. destruct Hwf1 as [Htab1 _].
      destruct (Htab1 _ _ Hp) as (_ & _ & ->). apply not_elem_of_nil.
    - left. split; [exact Hp|]. intros t tm Ht Hl.
      assert (∀ tm', <[next_timer s := mkTimer (clock s + d) (Waiting id link)]>
                       (timers s) !! t = Some tm' → live id (wait tm') = true →
                (t = next_timer s ∧ tm' = mkTimer (clock s + d) (Waiting id link)) ∨
                (∃ old, handlers_ s !! id = Some old ∧ req_timer old = t ∧
                        ∃ l', wait tm' = Waiting id l')) as Hins.
      { intros tm'. rewrite lookup_insert_Some. intros [[<- <-]|[_ Htm]] Hl'.
        - by left.
        - right. destruct tm' as [e [|id' l'|id' l' ec]]; cbn in Hl'; [done| |].
          + apply bool_decide_eq_true in Hl' as ->.
            destruct (Hown _ _ _ _ Htm eq_refl) as (old & ? & ?). by eauto.
          + apply bool_decide_eq_true in Hl' as [-> ->].
            by destruct (Hexp _ _ l' Htm). }
      unfold registered in Ht. cbn in Ht, Hl.
      destruct (handlers_ s !! id) as [old|] eqn:Hold.
      + rewrite lookup_timer_cancel in Ht. case_decide as Heq.
        * destruct (_ !! t) as [tm'|] eqn:Htm'; [|done]. cbn in Ht.
          injection Ht as <-. pose proof (cancel_live _ _ Hl) as Hc.
          rewrite Hc in Hl.
          destruct (Hins _ eq_refl Hl) as [[-> ->]|(old' & _ & _ & l' & Hw)].
          -- done.
          -- rewrite <- Hc in Hw. cbn in Hw. by apply cancel_wait_not_waiting in Hw.
        * destruct (Hins _ Ht Hl) as [[-> ->]|(old' & [= <-] & ? & _)]; done.
      + destruct (Hins _ Ht Hl) as [[-> ->]|(old' & ? & _)]; done. }
  destruct (run_punctual r (clock s + d) link ops s1 Hdr) as [?|[Hsil _]];
    [by rewrite Hs1|done|done|].
  by destruct (Hsil l).
Qed.

Lemma no_premature_timeout_witness :
  0 + 50 ≤ clock (run [OpAdvance 20%N; OpExpire 0%N; OpDispatch 0%N; OpAdvance 30%N;
                       OpExpire 0%N; OpDispatch 0%N] tracked).
Proof.
  apply (no_premature_timeout init link_a token callback 50
    [OpAdvance 20%N; OpExpire 0%N; OpDispatch 0%N; OpAdvance 30%N;
     OpExpire 0%N; OpDispatch 0%N] link_a wf_init).
  - intros t tm l. cbn. by rewrite lookup_empty.
  - reflexivity.
  - apply (bool_decide_unpack _). vm_compute. exact I.
Defined.

Lemma effect_distinct s s' :
  effect s s' → table_wf s → distinct_timers s → distinct_timers s'.
Proof.
  intros [Hh Hn Hc|id r cs Hr Hh Hn Hc Hcs|link id h Hh Hn Hc] [Htab _] Hd k k' r1 r2.
  - rewrite Hh. apply Hd.
  - rewrite Hh, !lookup_delete_Some. intros [_ H1] [_ H2]. by eapply Hd.
  - rewrite Hh, !lookup_insert_Some.
    intros [[<- <-]|[Hk H1]] [[<- <-]|[Hk' H2]]; try done.
    + cbn. destruct (Htab _ _ H2) as (_ & ? & _). lia.
    + cbn. destruct (Htab _ _ H1) as (_ & ? & _). lia.
    + by eapply Hd.
Qed.

Lemma run_distinct ops s :
  table_wf s → distinct_timers s → distinct_timers (run ops s).
Proof.
  revert s. induction ops as [|o ops IH]; intros s Hwf Hd; [done|].
  cbn. apply IH; [by apply exec_table_wf|].
  eapply effect_distinct; [apply exec_effect|done..].
Qed.

Lemma distinct_init : distinct_timers init.
Proof. intros k k' r r'. cbn. by rewrite lookup_empty. Qed.

(** X7. In a reachable state, a message or a timeout for another token
    leaves a pending record in the table and does not touch its timer. *)
Theorem completion_leaves_others ops r' :
  let s := run ops init in
  pending r' s →
  (∀ link m, msg_token m ≠ req_id r' →
     pending r' (on_message link m s).2 ∧
     timers (on_message link m s).2 !! req_timer r' = timers s !! req_timer r') ∧
  (∀ id link ec, id ≠ req_id r' →
     pending r' (timeout id link ec s).2 ∧
     timers (timeout id link ec s).2 !! req_timer r' = timers s !! req_timer r').
Proof.
  intros s Hp.
  pose proof (run_distinct ops init table_wf_init distinct_init) as Hd. fold s in Hd.
  assert (∀ k r, handlers_ s !! k = Some r → k ≠ req_id r' →
            req_timer r ≠ req_timer r') as Hne.
  { intros k r Hr Hk Heq. apply Hk. by eapply Hd. }
  split.
  - intros link m Hm. destruct (handlers_ s !! msg_token m) as [r|] eqn:Hr.
    + destruct (decide (link = req_link r)) as [Hl|Hl].
      * rewrite (on_message_match _ _ _ _ Hr Hl). unfold pending. cbn.
        rewrite lookup_delete_ne, lookup_timer_cancel, decide_False by eauto. done.
      * rewrite (on_message_cross _ _ _ _ Hr Hl). unfold pending. cbn.
        rewrite lookup_delete_ne, lookup_timer_cancel, decide_False by eauto. done.
    + by rewrite (on_message_absent _ _ _ Hr).
  - intros id link ec Hid. destruct (decide (ec = 0)) as [->|Hec].
    + destruct (handlers_ s !! id) as [r|] eqn:Hr.
      * rewrite (timeout_present _ _ _ _ Hr). unfold pending. cbn.
        rewrite lookup_delete_ne, lookup_timer_cancel, decide_False by eauto. done.
      * by rewrite (timeout_absent _ _ _ Hr).
    + by rewrite timeout_cancelled.
Qed.

Lemma completion_leaves_others_witness :
  pending request (on_message link_b (mkMessage 0%N 0%N 8%N []) 
     (run [OpRegister link_a token callback 50; OpRegister link_b 8%N 101%N 10] init)).2 ∧
  timers (on_message link_b (mkMessage 0%N 0%N 8%N [])
     (run [OpRegister link_a token callback 50; OpRegister link_b 8%N 101%N 10] init)).2
    !! req_timer request =
  timers (run [OpRegister link_a token callback 50; OpRegister link_b 8%N 101%N 10] init)
    !! req_timer request.
Proof.
  destruct (completion_leaves_others
    [OpRegister link_a token callback 50; OpRegister link_b 8%N 101%N 10] request eq_refl)
    as [H _].
  apply (H link_b (mkMessage 0%N 0%N 8%N [])). vm_compute. discriminate.
Defined.

End TrackingMore.

(** * Properties of the link events of the realm service *)

Module RealmLinksSpec.

Import Spark Login RealmLinks.

Section Props.
Variable RealmList : Type.
Variable add_realm : Realm → RealmList → RealmList.
Variable get_realm : Z → RealmList → Realm.
Variable OFFLINE : Z.
Variable send_ok : Link → Outgoing → bool.

(** X8. A [RealmStatus] message with name, ip and a non-zero id is
    accepted: [handle_message] returns, passes to [add_realm] a realm with
    exactly the fields of the message, maps the link to the id, and logs no
    failure. *)
Theorem handle_message_complete_status link root (s : State RealmList) name ip :
  data_type root = Data_RealmStatus →
  rs_name (data root) = Some name → rs_ip (data root) = Some ip →
  rs_id (data root) ≠ 0 →
  handle_message RealmList add_realm link root s =
    (Ok tt,
     mkState RealmList
       (add_realm (mkRealm (rs_id (data root)) ip name (rs_population (data root))
                     (rs_type (data root)) (rs_flags (data root))
                     (rs_timezone (data root)))
                  (realms_ RealmList s))
       (<[link_uuid link := rs_id (data root)]> (known_realms_ RealmList s))
       (logger_ RealmList s ++ [(TRACE, "handle_realm_status")])).
Proof.
  intros Hdt Hn Hi Hid. unfold handle_message. rewrite Hdt.
  unfold handle_realm_status, mbind, M_bind, bind, Login.log, modify, str.
  cbn. rewrite Hn, Hi. rewrite decide_False by (intros [?|[?|?]]; done). done.
Qed.

(** X9. For a link with a known realm, [mark_realm_offline] stores again
    the realm that [get_realm] returns, with every bit of [OFFLINE] set in
    its flags, every other bit and every other field unchanged; marking is
    idempotent on the flags and [known_realms_] is not changed. *)
Theorem mark_realm_offline_known link id (s : State RealmList) :
  known_realms_ RealmList s !! link_uuid link = Some id →
  ∃ realm',
    mark_realm_offline RealmList add_realm get_realm OFFLINE link s =
      (Ok tt, mkState RealmList (add_realm realm' (realms_ RealmList s))
                (known_realms_ RealmList s) (logger_ RealmList s)) ∧
    let realm := get_realm id (realms_ RealmList s) in
    realm_id realm' = realm_id realm ∧ realm_ip realm' = realm_ip realm ∧
    realm_name realm' = realm_name realm ∧
    realm_population realm' = realm_population realm ∧
    realm_type realm' = realm_type realm ∧
    realm_timezone realm' = realm_timezone realm ∧
    Z.land (realm_flags realm') OFFLINE = OFFLINE ∧
    Z.lor (realm_flags realm') OFFLINE = realm_flags realm' ∧
    ∀ n, Z.testbit OFFLINE n = false →
         Z.testbit (realm_flags realm') n = Z.testbit (realm_flags realm) n.
Proof.
  intros Hk. unfold mark_realm_offline. rewrite Hk. eexists. split; [done|].
  cbn. split_and!; try done.
  - apply Z.bits_inj'. intros n _. rewrite Z.land_spec, Z.lor_spec.
    by destruct (Z.testbit OFFLINE n), (Z.testbit _ n).
  - by rewrite <- Z.lor_assoc, Z.lor_diag.
  - intros n Hn. rewrite Z.lor_spec, Hn. apply orb_false_r.
Qed.

(** X10. A link that goes down without having reported a realm changes
    neither the realm list nor [known_realms_], and nothing is sent. *)
Theorem link_down_unknown_link link (w : Service_ RealmList) :
  known_realms_ RealmList (realm_state RealmList w) !! link_uuid link = None →
  ∃ w', handle_link_event RealmList add_realm get_realm OFFLINE send_ok link LINK_DOWN w =
          (Ok tt, w') ∧
    realms_ RealmList (realm_state RealmList w') = realms_ RealmList (realm_state RealmList w) ∧
    known_realms_ RealmList (realm_state RealmList w') =
      known_realms_ RealmList (realm_state RealmList w) ∧
    sent RealmList w' = sent RealmList w ∧ connects RealmList w' = connects RealmList w.
Proof.
  intros Hk. unfold handle_link_event, mbind, M_bind, bind, log, on_realm_state,
    Login.log, modify, mark_realm_offline. cbn. rewrite Hk. by eexists.
Qed.

(** X11. When the realm list returns under an id the realm that was
    added with it, a status message followed by the loss of the same link
    stores the reported realm with [OFFLINE] added to its flags, and the
    link stays mapped to the realm. *)
Theorem status_then_link_down link root (w : Service_ RealmList) name ip :
  (∀ r l, get_realm (realm_id r) (add_realm r l) = r) →
  rs_name (data root) = Some name → rs_ip (data root) = Some ip →
  let reported :=
    mkRealm (rs_id (data root)) ip name (rs_population (data root))
            (rs_type (data root)) (rs_flags (data root)) (rs_timezone (data root)) in
  let offline :=
    mkRealm (rs_id (data root)) ip name (rs_population (data root))
            (rs_type (data root)) (Z.lor (rs_flags (data root)) OFFLINE)
            (rs_timezone (data root)) in
  ∃ s1 w2,
    handle_realm_status RealmList add_realm link root (realm_state RealmList w) =
      (Ok tt, s1) ∧
    handle_link_event RealmList add_realm get_realm OFFLINE send_ok link LINK_DOWN
      (mkService RealmList s1 (sent RealmList w) (connects RealmList w)) = (Ok tt, w2) ∧
    realms_ RealmList (realm_state RealmList w2) =
      add_realm offline (add_realm reported (realms_ RealmList (realm_state RealmList w))) ∧
    known_realms_ RealmList (realm_state RealmList w2) !! link_uuid link =
      Some (rs_id (data root)) ∧
    sent RealmList w2 = sent RealmList w.
Proof.
  intros Hget Hn Hi reported offline.
  unfold handle_realm_status, handle_link_event, mbind, M_bind, bind, log,
    on_realm_state, Login.log, modify, str, mark_realm_offline.
  cbn. rewrite Hn, Hi. cbn.
  destruct (decide _); cbn; eexists _, _; (split; [reflexivity|]); cbn;
    rewrite lookup_insert_eq; (split; [reflexivity|]); cbn;
    fold reported; rewrite (Hget reported); split_and!; try done;
    by rewrite lookup_insert_eq.
Qed.

(** X12. A link that comes up is sent exactly one [RequestRealmStatus]
    message; the call returns whether or not the send succeeds, a failed
    send is only logged, and the realm list and [known_realms_] are
    unchanged. *)
Theorem link_up_requests_status link (w : Service_ RealmList) :
  ∃ w', handle_link_event RealmList add_realm get_realm OFFLINE send_ok link LINK_UP w =
          (Ok tt, w') ∧
    sent RealmList w' =
      sent RealmList w ++ [(link, mkOutgoing Service_RealmStatus 0 0 Data_RequestRealmStatus)] ∧
    realms_ RealmList (realm_state RealmList w') = realms_ RealmList (realm_state RealmList w) ∧
    known_realms_ RealmList (realm_state RealmList w') =
      known_realms_ RealmList (realm_state RealmList w) ∧
    connects RealmList w' = connects RealmList w ∧
    logger_ RealmList (realm_state RealmList w') =
      logger_ RealmList (realm_state RealmList w) ++
        [(TRACE, "handle_link_event"); (INFO, "Link to realm gateway established");
         (TRACE, "request_realm_status")] ++
        (if send_ok link (mkOutgoing Service_RealmStatus 0 0 Data_RequestRealmStatus)
         then [] else [(DEBUG, "Failed")]).
Proof.
  unfold handle_link_event, request_realm_status, mbind, M_bind, bind, log,
    on_realm_state, Login.log, modify, send. cbn.
  destruct (send_ok link _); cbn; eexists; (split; [done|]); cbn;
    split_and!; try done; by rewrite <- !app_assoc.
Qed.

(** X13. [service_located] connects once to the ip and port of the
    answer and touches nothing else; an answer without ip is dereferenced
    through a null pointer before anything is done. *)
Theorem service_located_connects message (w : Service_ RealmList) :
  (∀ ip, la_ip message = Some ip →
     ∃ w', service_located RealmList message w = (Ok tt, w') ∧
       connects RealmList w' = connects RealmList w ++ [(ip, la_port message)] ∧
       sent RealmList w' = sent RealmList w ∧
       realms_ RealmList (realm_state RealmList w') =
         realms_ RealmList (realm_state RealmList w) ∧
       known_realms_ RealmList (realm_state RealmList w') =
         known_realms_ RealmList (realm_state RealmList w)) ∧
  (la_ip message = None →
     service_located RealmList message w = (Throw null_dereference, w)).
Proof.
  unfold service_located, ip_str, mbind, M_bind, bind, log, on_realm_state,
    Login.log, modify, connect, throw. split.
  - intros ip ->. cbn. by eexists.
  - intros ->. done.
Qed.

End Props.

Lemma handle_message_complete_status_witness :
  handle_message realm_table table_add gateway
    (mkMessageRoot Data_RealmStatus status_complete) (mkState realm_table ∅ ∅ []) =
  (Ok tt,
   mkState realm_table (table_add (mkRealm 5 "10.0.0.1" "Ember" 0%N 1 4 2) ∅)
     (<[link_uuid gateway := 5]> ∅) [(TRACE, "handle_realm_status")]).
Proof.
  exact (handle_message_complete_status realm_table table_add gateway
    (mkMessageRoot Data_RealmStatus status_complete) (mkState realm_table ∅ ∅ [])
    "Ember" "10.0.0.1" eq_refl eq_refl eq_refl ltac:(discriminate)).
Defined.

Lemma table_get_add r t : table_get (realm_id r) (table_add r t) = r.
Proof. unfold table_get, table_add, realm_table in *. by rewrite lookup_insert_eq. Qed.

Lemma mark_realm_offline_known_witness :
  ∃ realm',
    mark_realm_offline realm_table table_add table_get 2 gateway reported_state =
      (Ok tt, mkState realm_table (table_add realm' (realms_ realm_table reported_state))
                (known_realms_ realm_table reported_state) []) ∧
    Z.land (realm_flags realm') 2 = 2.
Proof.
  assert (known_realms_ realm_table reported_state !! link_uuid gateway = Some 5) as Hk
    by (vm_compute; reflexivity).
  destruct (mark_realm_offline_known realm_table table_add table_get 2 gateway 5
    reported_state Hk) as (realm' & Heq & _ & _ & _ & _ & _ & _ & Hland & _).
  exists realm'. split; [exact Heq|exact Hland].
Defined.

Lemma link_down_unknown_link_witness :
  ∃ w', handle_link_event realm_table table_add table_get 2 (λ _ _, true)
          gateway LINK_DOWN world0 = (Ok tt, w') ∧
        realms_ realm_table (realm_state realm_table w') = ∅.
Proof.
  assert (known_realms_ realm_table (realm_state realm_table world0)
            !! link_uuid gateway = None) as Hk by (vm_compute; reflexivity).
  destruct (link_down_unknown_link realm_table table_add table_get 2 (λ _ _, true)
    gateway world0 Hk) as (w' & Heq & Hr & _).
  exists w'. split; [exact Heq|exact Hr].
Defined.

Lemma status_then_link_down_witness :
  ∃ s1 w2,
    handle_realm_status realm_table table_add gateway
      (mkMessageRoot Data_RealmStatus status_complete)
      (realm_state realm_table world0) = (Ok tt, s1) ∧
    handle_link_event realm_table table_add table_get 2 (λ _ _, true) gateway LINK_DOWN
      (mkService realm_table s1 [] []) = (Ok tt, w2) ∧
    realms_ realm_table (realm_state realm_table w2) =
      table_add (mkRealm 5 "10.0.0.1" "Ember" 0%N 1 (Z.lor 4 2) 2)
        (table_add (mkRealm 5 "10.0.0.1" "Ember" 0%N 1 4 2) ∅).
Proof.
  destruct (status_then_link_down realm_table table_add table_get 2 (λ _ _, true)
    gateway (mkMessageRoot Data_RealmStatus status_complete) world0
    "Ember" "10.0.0.1" table_get_add eq_refl eq_refl)
    as (s1 & w2 & H1 & H2 & H3 & _).
  exists s1, w2. split; [exact H1|]. split; [exact H2|exact H3].
Defined.

Lemma service_located_connects_witness :
  (∃ w', service_located realm_table (mkLocateAnswer (Some "10.0.0.9") 6000) world0 =
           (Ok tt, w') ∧
         connects realm_table w' = [("10.0.0.9", 6000)]) ∧
  service_located realm_table (mkLocateAnswer None 6000) world0 =
    (Throw null_dereference, world0).
Proof.
  split.
  - destruct (proj1 (service_located_connects realm_table
      (mkLocateAnswer (Some "10.0.0.9") 6000) world0) "10.0.0.9" eq_refl)
      as (w' & Heq & Hc & _).
    exists w'. split; [exact Heq|exact Hc].
  - exact (proj2 (service_located_connects realm_table
      (mkLocateAnswer None 6000) world0) eq_refl).
Defined.

End RealmLinksSpec.

(** * Properties of the gateway start-up helpers *)

Module GatewaySpec.

Import Gateway.

(** X14. [category_name] returns the English name of the first record,
    in iteration order, whose category and region are those of the realm,
    and throws [invalid_argument] exactly when no record matches. *)
Theorem category_name_first_match realm dbc :
  (∀ name, category_name realm dbc = Returned name ↔
     ∃ pre k record post, dbc = pre ++ (k, record) :: post ∧
       matches realm record ∧ cc_name_en_gb record = name ∧
       ∀ k' record', (k', record') ∈ pre → ¬ matches realm record') ∧
  (∀ what, category_name realm dbc = invalid_argument what ↔
     what = "Unknown category/region combination in database" ∧
     ∀ k record, (k, record) ∈ dbc → ¬ matches realm record).
Proof.
  induction dbc as [|[k0 r0] rest [IHr IHt]]; cbn.
  - split.
    + intros name. split; [done|]. intros (pre & k & record & post & Heq & _).
      by destruct pre.
    + intros what. split.
      * intros [= <-]. split; [done|]. intros k record ?%elem_of_nil. done.
      * by intros [-> _].
  - case_decide as Hm.
    + split.
      * intros name. split.
        -- intros [= <-]. exists [], k0, r0, rest. split_and!; try done.
           intros k' record' ?%elem_of_nil. done.
        -- intros (pre & k & record & post & Heq & Hrec & <- & Hpre).
           destruct pre as [|[k1 r1] pre]; cbn in Heq.
           ++ by injection Heq as <- <- _.
           ++ injection Heq as <- <- _. destruct (Hpre k0 r0); [left|done].
      * intros what. split; [done|]. intros [_ Hno].
        destruct (Hno k0 r0); [left|done].
    + split.
      * intros name. rewrite IHr. split.
        -- intros (pre & k & record & post & -> & Hrec & Hn & Hpre).
           exists ((k0, r0) :: pre), k, record, post. split_and!; try done.
           intros k' record' [[= -> ->]|?]%elem_of_cons; [done|by eapply Hpre].
        -- intros (pre & k & record & post & Heq & Hrec & Hn & Hpre).
           destruct pre as [|[k1 r1] pre]; cbn in Heq.
           ++ injection Heq as <- <- _. done.
           ++ injection Heq as <- <- ->. exists pre, k, record, post.
              split_and!; try done. intros k' record' Hin. eapply Hpre. by right.
      * intros what. rewrite IHt. split.
        -- intros [-> Hno]. split; [done|].
           intros k record [[= -> ->]|?]%elem_of_cons; [done|by eapply Hno].
        -- intros [-> Hno]. split; [done|]. intros k record Hin.
           eapply Hno. by right.
Qed.

Ltac no_match H M :=
  repeat (apply elem_of_cons in H as [[= -> ->]|H];
          [by (destruct M as [M1 M2]; cbn in M1, M2)|]);
  by apply elem_of_nil in H.

Lemma category_name_first_match_witness :
  category_name (mkRealm 2 2) sample_dbc = Returned "Europe" ∧
  category_name (mkRealm 9 9) sample_dbc =
    invalid_argument "Unknown category/region combination in database".
Proof.
  split.
  - apply (proj1 (category_name_first_match (mkRealm 2 2) sample_dbc) "Europe").
    exists [(1, mkCfg 1 1 "Development"); (2, mkCfg 2 1 "United States")],
      3, (mkCfg 2 2 "Europe"), [].
    split_and!; [reflexivity|by split|reflexivity|].
    intros k' record' Hin Hm. no_match Hin Hm.
  - apply (proj2 (category_name_first_match (mkRealm 9 9) sample_dbc)).
    split; [reflexivity|]. intros k record Hin Hm. no_match Hin Hm.
Defined.

(** X15. When all records that match the realm carry the same name, the
    result of [category_name] does not depend on the order in which the map
    is iterated. *)
Theorem category_name_order_independent realm dbc dbc' :
  dbc ≡ₚ dbc' →
  (∀ k1 r1 k2 r2, (k1, r1) ∈ dbc → (k2, r2) ∈ dbc →
     matches realm r1 → matches realm r2 → cc_name_en_gb r1 = cc_name_en_gb r2) →
  category_name realm dbc = category_name realm dbc'.
Proof.
  intros Hperm Hsame.
  destruct (category_name_first_match realm dbc) as [HR HI].
  destruct (category_name_first_match realm dbc') as [HR' HI'].
  destruct (category_name realm dbc) as [name|what] eqn:H1.
  - destruct (proj1 (HR name) eq_refl) as (pre & k & rec & post & -> & Hm & <- & _).
    assert ((k, rec) ∈ pre ++ (k, rec) :: post) as Hin
      by (apply elem_of_app; right; left).
    destruct (category_name realm dbc') as [name'|what'] eqn:H2.
    + destruct (proj1 (HR' name') eq_refl)
        as (pre' & k' & rec' & post' & Heq & Hm' & <- & _).
      f_equal. eapply Hsame; [exact Hin| |done|done].
      rewrite Hperm, Heq. apply elem_of_app. right. left.
    + destruct (proj1 (HI' what') eq_refl) as [_ Hno].
      destruct (Hno k rec); [by rewrite <- Hperm|done].
  - destruct (proj1 (HI what) eq_refl) as [-> Hno]. symmetry. apply HI'.
    split; [done|]. intros k rec Hin. apply (Hno k rec). by rewrite Hperm.
Qed.

Lemma category_name_order_independent_witness :
  category_name (mkRealm 2 1) sample_dbc = category_name (mkRealm 2 1) (reverse sample_dbc).
Proof.
  apply category_name_order_independent.
  - symmetry. apply reverse_Permutation.
  - intros k1 r1 k2 r2 H1 H2 M1 M2.
    assert (∀ k r, (k, r) ∈ sample_dbc → matches (mkRealm 2 1) r →
              cc_name_en_gb r = "United States") as Hone.
    { intros k r H [Ma Mb].
      repeat (apply elem_of_cons in H as [[= -> ->]|H]; [by cbn in Ma, Mb|]).
      by apply elem_of_nil in H. }
    by rewrite (Hone _ _ H1 M1), (Hone _ _ H2 M2).
Defined.

End GatewaySpec.

(** * Properties of the PlayerLogin packet *)

Module ProtocolSpec.

Import Protocol.

Lemma le_bytes_length n v : length (le_bytes n v) = n.
Proof. revert v. induction n as [|n IH]; intros v; cbn; [done|]. by rewrite IH. Qed.

Lemma le_value_bytes n v : le_value (le_bytes n v) = v `mod` 256 ^ Z.of_nat n.
Proof.
  revert v. induction n as [|n IH]; intros v.
  - cbn. by rewrite Z.mod_1_r.
  - cbn [le_bytes le_value]. rewrite IH, Nat2Z.inj_succ, Z.pow_succ_r by lia.
    rewrite Z.rem_mul_r by lia. done.
Qed.

Lemma le_bytes_lookup n v i :
  (i < n)%nat →
  le_bytes n v !! i = Some (Z.land (Z.shiftr v (8 * Z.of_nat i)) 255).
Proof.
  revert v i. induction n as [|n IH]; intros v i Hi; [lia|].
  destruct i as [|i].
  - cbn. rewrite Z.shiftr_0_r. change 255 with (Z.ones 8).
    by rewrite Z.land_ones by lia.
  - change (le_bytes (S n) v !! S i) with (le_bytes n (v `div` 2 ^ 8) !! i).
    rewrite IH by lia. do 2 f_equal.
    rewrite <- (Z.shiftr_div_pow2 v 8) by lia. rewrite Z.shiftr_shiftr by lia.
    f_equal. lia.
Qed.

Section StreamProps.
Variable BinaryStream : Type.
Variable get : nat → BinaryStream → option (list Z) * BinaryStream.
Variable put : list Z → BinaryStream → BinaryStream.
Variable asserts : bool.


(** X17. [write_to_stream] inserts exactly eight bytes, byte [i] being
    bits [8i .. 8i+7] of [character_id]: little-endian, and the value is
    recovered from them modulo 2^64. *)
Theorem write_to_stream_layout p stream :
  ∃ bytes, write_to_stream BinaryStream put p stream = put bytes stream ∧
    length bytes = 8%nat ∧
    (∀ i, (i < 8)%nat →
       bytes !! i = Some (Z.land (Z.shiftr (character_id p) (8 * Z.of_nat i)) 255)) ∧
    le_value bytes = character_id p `mod` 2 ^ 64.
Proof.
  exists (le_bytes 8 (character_id p)). split_and!.
  - done.
  - apply le_bytes_length.
  - intros i Hi. by apply le_bytes_lookup.
  - by rewrite le_value_bytes.
Qed.

(** X18. A packet is completed once.  A successful read leaves the packet
    [DONE], and reading it again fails the assertion when assertions are
    compiled in; a read that runs out of bytes returns [ERRORED], leaves
    the packet as it was, and the packet can be read again. *)
Theorem read_from_stream_once q stream :
  state_ q ≠ DONE →
  (∀ bytes rest, get 8 stream = (Some bytes, rest) →
     ∃ q', read_from_stream BinaryStream get asserts q stream = Some (DONE, q', rest) ∧
       state_ q' = DONE ∧ character_id q' = le_value bytes ∧
       (asserts = true → ∀ stream', read_from_stream BinaryStream get asserts q' stream' = None)) ∧
  (∀ rest, get 8 stream = (None, rest) →
     read_from_stream BinaryStream get asserts q stream = Some (ERRORED, q, rest) ∧
     ∀ stream', read_from_stream BinaryStream get asserts q stream' ≠ None).
Proof.
  intros Hq. split.
  - intros bytes rest Hget. eexists. unfold read_from_stream at 1.
    rewrite bool_decide_false, andb_false_r by done. rewrite Hget.
    split_and!; [done|done|done|]. intros -> stream'. done.
  - intros rest Hget. unfold read_from_stream.
    rewrite bool_decide_false, andb_false_r by done. rewrite Hget. split; [done|].
    intros stream'. by destruct (get 8 stream') as [[?|] ?].
Qed.

End StreamProps.


Lemma read_from_stream_once_witness :
  read_from_stream (list Z) fifo_get true (mkPlayerLogin INITIAL 0) [1; 2; 3] =
    Some (ERRORED, mkPlayerLogin INITIAL 0, [1; 2; 3]).
Proof.
  destruct (read_from_stream_once (list Z) fifo_get true (mkPlayerLogin INITIAL 0)
    [1; 2; 3]) as [_ H]; [discriminate|].
  exact (proj1 (H [1; 2; 3] eq_refl)).
Defined.

End ProtocolSpec.
